(** * SMAAImageLoader: cached loading of the SMAA search and area images

    A shallow embedding of [src/images/smaa/utils/SMAAImageLoader.js]: the
    private function [generate], the constructor of [SMAAImageLoader] and
    its method [load].

    The JavaScript is single-threaded and event driven.  Synchronous code is
    embedded in a small state-and-exception monad [JS] over a record [World]
    that holds every object the loader touches.  The browser is the
    environment: it delivers [Event]s (worker messages, worker errors, native
    image events) one macrotask at a time, and promise reactions run as
    microtasks right after the synchronous code that settled the promise.

    One call of [load] (or of [generate]) is followed from an arbitrary
    store and an arbitrary state of the caller's manager.  What the caller
    supplies (onLoad, onError, the hooks of its manager) is recorded as a
    call and taken to return normally. *)

From stdpp Require Import base option list gmap strings fin_maps.

Local Open Scope string_scope.
Local Open Scope list_scope.
Local Open Scope nat_scope.

(** ** Values *)

(** A thrown JavaScript value, also the [error] carried by an ErrorEvent. *)
Definition error := string.

(** The two fixed names.  The source uses the same two strings as
    localStorage keys and as LoadingManager item names. *)
Inductive Slot := Search | Area.

Definition key (s : Slot) : string :=
  match s with
  | Search => "smaa-search"
  | Area => "smaa-area"
  end.

(** The ImageData-like objects posted by the worker. *)
Record ImageData := mkImageData {
  width : nat;
  height : nat;
  data : list nat
}.

(** [event.data] of the worker's "message" event. *)
Record MessageData := mkMessageData {
  searchImageData : ImageData;
  areaImageData : ImageData
}.

(** The array [urls]: [urls[0]] and [urls[1]]. *)
Definition URLs := (string * string)%type.

(** What the [src] attributes of [result.search] and [result.area] hold when
    [result] is handed to a callback or to [resolve]. *)
Record Sources := mkSources {
  search_src : option string;
  area_src : option string
}.

Inductive PromiseState (A : Type) :=
| Pending
| Fulfilled (v : A)
| Rejected (e : error).
Arguments Pending {A}.
Arguments Fulfilled {A} v.
Arguments Rejected {A} e.

(** ** Collaborators of the browser and of three *)

(** [window.localStorage].  [capacity] bounds the characters the store may
    hold ([None]: no bound); writing past it throws, as a full store does.
    [readError] is the exception [getItem] throws where the embedding page
    may not read the store. *)
Record Storage := mkStorage {
  items : gmap string string;
  capacity : option nat;
  readError : option error
}.

Definition usage (m : gmap string string) : nat :=
  map_fold (λ k v n, String.length k + String.length v + n) 0 m.

Definition fits (cap : option nat) (m : gmap string string) : bool :=
  match cap with
  | None => true
  | Some c => Nat.leb (usage m) c
  end.

(** three's LoadingManager keeps two counters; [itemEnd] reports completion
    when they meet.  Its [onStart], [onProgress] and [onError] hooks belong
    to whoever owns the manager and are not part of the loader. *)
Record LoadingManager := mkLoadingManager {
  isLoading : bool;
  itemsLoaded : nat;
  itemsTotal : nat
}.

Definition new_LoadingManager : LoadingManager :=
  mkLoadingManager false 0 0.

Definition started (m : LoadingManager) : LoadingManager :=
  mkLoadingManager true (itemsLoaded m) (S (itemsTotal m)).

Definition complete (m : LoadingManager) : bool :=
  Nat.eqb (S (itemsLoaded m)) (itemsTotal m).

Definition ended (m : LoadingManager) : LoadingManager :=
  mkLoadingManager (if complete m then false else isLoading m)
    (S (itemsLoaded m)) (itemsTotal m).

Inductive Manager := External | Internal.

(** The two closures [load] registers for the native "load" event. *)
Inductive ImageListener :=
| SearchLoaded   (* lines 129-134 *)
| AreaLoaded.    (* lines 136-141 *)

Record Image := mkImage {
  src : option string;
  loadListeners : list ImageListener
}.

Definition new_Image : Image := mkImage None [].

(** The two closures [generate] registers on its worker.  The message
    handler captures the argument [disableCache]. *)
Inductive WorkerListener :=
| OnWorkerError                        (* line 20 *)
| OnWorkerMessage (disableCache : bool). (* lines 21-41 *)

Record Worker := mkWorker {
  listeners : list WorkerListener;
  posted : nat
}.

(** ** Observable calls

    Every call the loader makes on a collaborator is appended to a log, so
    that multiplicities and orderings can be stated. *)
Inductive Call :=
| ItemStart (m : Manager) (url : string)
| ItemEnd (m : Manager) (url : string)
| ItemError (m : Manager) (url : string)
| CreateObjectURL
| NewWorker
| WorkerAddEventListener (type : string)
| PostMessage
| Terminate                 (* Worker.terminate(); the source never calls it *)
| RevokeObjectURL
| ToDataURL (d : ImageData)
| GetItem (k : string)
| SetItem (k v : string)
| ImageAddEventListener (s : Slot) (type : string)
| SetSrc (s : Slot) (url : string)
| GenResolve (urls : URLs)  (* resolve(urls) inside generate *)
| GenReject (e : error)     (* reject(event.error) inside generate *)
| OnLoad (r : Sources)      (* the caller's onLoad(result) *)
| OnError (e : error)       (* the caller's onError(error) *)
| Resolve (r : Sources)     (* resolve(result) of the promise load returns *)
| Reject (e : error)        (* reject(error) of the promise load returns *)
| Uncaught (e : error).     (* an exception leaving an event listener *)

(** Where the reaction chain [promise.then(...).catch(...)] stands. *)
Inductive Reaction :=
| Unchained   (* then/catch not attached *)
| Waiting     (* attached, callbacks not run yet *)
| Done.       (* one of the two callbacks has run *)

(** ** The world *)
Record World := mkWorld {
  localStorage : option Storage;      (* window.localStorage; None: undefined *)
  disableCache : bool;                (* this.disableCache *)
  externalManager : LoadingManager;   (* this.loadingManager *)
  internalManager : LoadingManager;   (* the manager load creates *)
  internalOnLoad : bool;              (* internalManager.onLoad is bound *)
  search : Image;                     (* result.search *)
  area : Image;                       (* result.area *)
  worker : option Worker;             (* the worker generate spawned *)
  workerURL : option bool;            (* the blob URL: Some true while live *)
  promise : PromiseState URLs;        (* [promise] of lines 124-125 *)
  reaction : Reaction;
  returned : PromiseState Sources;    (* the promise load returns *)
  calls : list Call                   (* newest first *)
}.

(** The world before the loader ran: a store (or none), the [disableCache]
    flag and the caller's manager are given; nothing else exists yet. *)
Definition initial (st : option Storage) (dc : bool) (ext : LoadingManager)
  : World :=
  mkWorld st dc ext new_LoadingManager false new_Image new_Image None None
    Pending Unchained Pending [].

(** The log in the order the calls were made. *)
Definition trace (w : World) : list Call := rev (calls w).

(** ** The monad of synchronous JavaScript *)
Inductive Completion (A : Type) :=
| Normal (a : A)
| Throw (e : error).
Arguments Normal {A} a.
Arguments Throw {A} e.

Definition JS (A : Type) : Type := World → Completion A * World.

Definition ret {A} (a : A) : JS A := λ w, (Normal a, w).

Definition throw {A} (e : error) : JS A := λ w, (Throw e, w).

Definition bind {A B} (m : JS A) (k : A → JS B) : JS B :=
  λ w, match m w with
       | (Normal a, w') => k a w'
       | (Throw e, w') => (Throw e, w')
       end.

(** [try { m } catch (e) { h e }] *)
Definition try_catch {A} (m : JS A) (h : error → JS A) : JS A :=
  λ w, match m w with
       | (Normal a, w') => (Normal a, w')
       | (Throw e, w') => h e w'
       end.

Definition gets {A} (f : World → A) : JS A := λ w, (Normal (f w), w).

Definition modify (f : World → World) : JS unit := λ w, (Normal tt, f w).

Notation "'let*' x ':=' m 'in' k" := (bind m (λ x, k))
  (at level 10, x pattern, m at level 100, k at level 200).
Notation "m '>>' k" := (bind m (λ _, k))
  (at level 90, right associativity).

(** The world a computation leaves behind. *)
Definition exec {A} (m : JS A) (w : World) : World := snd (m w).

(** *** Field updates *)
Definition with_localStorage (x : option Storage) (w : World) : World :=
  mkWorld x (disableCache w) (externalManager w) (internalManager w)
    (internalOnLoad w) (search w) (area w) (worker w) (workerURL w)
    (promise w) (reaction w) (returned w) (calls w).

Definition with_externalManager (x : LoadingManager) (w : World) : World :=
  mkWorld (localStorage w) (disableCache w) x (internalManager w)
    (internalOnLoad w) (search w) (area w) (worker w) (workerURL w)
    (promise w) (reaction w) (returned w) (calls w).

Definition with_internalManager (x : LoadingManager) (w : World) : World :=
  mkWorld (localStorage w) (disableCache w) (externalManager w) x
    (internalOnLoad w) (search w) (area w) (worker w) (workerURL w)
    (promise w) (reaction w) (returned w) (calls w).

Definition with_internalOnLoad (x : bool) (w : World) : World :=
  mkWorld (localStorage w) (disableCache w) (externalManager w)
    (internalManager w) x (search w) (area w) (worker w) (workerURL w)
    (promise w) (reaction w) (returned w) (calls w).

Definition with_search (x : Image) (w : World) : World :=
  mkWorld (localStorage w) (disableCache w) (externalManager w)
    (internalManager w) (internalOnLoad w) x (area w) (worker w)
    (workerURL w) (promise w) (reaction w) (returned w) (calls w).

Definition with_area (x : Image) (w : World) : World :=
  mkWorld (localStorage w) (disableCache w) (externalManager w)
    (internalManager w) (internalOnLoad w) (search w) x (worker w)
    (workerURL w) (promise w) (reaction w) (returned w) (calls w).

Definition with_worker (x : option Worker) (w : World) : World :=
  mkWorld (localStorage w) (disableCache w) (externalManager w)
    (internalManager w) (internalOnLoad w) (search w) (area w) x
    (workerURL w) (promise w) (reaction w) (returned w) (calls w).

Definition with_workerURL (x : option bool) (w : World) : World :=
  mkWorld (localStorage w) (disableCache w) (externalManager w)
    (internalManager w) (internalOnLoad w) (search w) (area w) (worker w) x
    (promise w) (reaction w) (returned w) (calls w).

Definition with_promise (x : PromiseState URLs) (w : World) : World :=
  mkWorld (localStorage w) (disableCache w) (externalManager w)
    (internalManager w) (internalOnLoad w) (search w) (area w) (worker w)
    (workerURL w) x (reaction w) (returned w) (calls w).

Definition with_reaction (x : Reaction) (w : World) : World :=
  mkWorld (localStorage w) (disableCache w) (externalManager w)
    (internalManager w) (internalOnLoad w) (search w) (area w) (worker w)
    (workerURL w) (promise w) x (returned w) (calls w).

Definition with_returned (x : PromiseState Sources) (w : World) : World :=
  mkWorld (localStorage w) (disableCache w) (externalManager w)
    (internalManager w) (internalOnLoad w) (search w) (area w) (worker w)
    (workerURL w) (promise w) (reaction w) x (calls w).

Definition with_calls (x : list Call) (w : World) : World :=
  mkWorld (localStorage w) (disableCache w) (externalManager w)
    (internalManager w) (internalOnLoad w) (search w) (area w) (worker w)
    (workerURL w) (promise w) (reaction w) (returned w) x.

(** Record a call. *)
Definition call (c : Call) : JS unit :=
  modify (λ w, with_calls (c :: calls w) w).

(** ** three's LoadingManager, as the loader drives it *)

Definition itemStart (m : Manager) (url : string) : JS unit :=
  call (ItemStart m url) >>
  match m with
  | External =>
      modify (λ w, with_externalManager (started (externalManager w)) w)
  | Internal =>
      modify (λ w, with_internalManager (started (internalManager w)) w)
  end.

Definition itemError (m : Manager) (url : string) : JS unit :=
  call (ItemError m url).

(** [result], as the callbacks see it. *)
Definition result : JS Sources :=
  gets (λ w, mkSources (src (search w)) (src (area w))).

(** Settling the promise [load] returns; a settled promise stays as it is. *)
Definition settle (s : PromiseState Sources) : JS unit :=
  modify (λ w, match returned w with
               | Pending => with_returned s w
               | _ => w
               end).

Definition resolve (r : Sources) : JS unit :=
  call (Resolve r) >> settle (Fulfilled r).

Definition reject (e : error) : JS unit :=
  call (Reject e) >> settle (Rejected e).

(** Lines 112-117: the closure bound to [internalManager.onLoad]. *)
Definition internalManager_onLoad : JS unit :=
  let* r := result in
  call (OnLoad r) >>
  resolve r.

(** [itemEnd] bumps [itemsLoaded] and fires the manager's [onLoad], if one
    is bound, when all started items have ended.  The internal manager's
    [onLoad] is the closure above; the external manager's hooks are the
    caller's. *)
Definition itemEnd (m : Manager) (url : string) : JS unit :=
  call (ItemEnd m url) >>
  match m with
  | External =>
      modify (λ w, with_externalManager (ended (externalManager w)) w)
  | Internal =>
      let* fire := gets (λ w, complete (internalManager w)) in
      modify (λ w, with_internalManager (ended (internalManager w)) w) >>
      let* bound := gets internalOnLoad in
      if fire && bound then internalManager_onLoad else ret tt
  end.

(** ** localStorage *)

Definition getItem (k : string) : JS (option string) :=
  call (GetItem k) >>
  let* ls := gets localStorage in
  match ls with
  | None => throw "TypeError"
  | Some st =>
      match readError st with
      | Some e => throw e
      | None => ret (items st !! k)
      end
  end.

Definition setItem (k v : string) : JS unit :=
  call (SetItem k v) >>
  let* ls := gets localStorage in
  match ls with
  | None => throw "TypeError"
  | Some st =>
      let m := <[k:=v]> (items st) in
      if fits (capacity st) m
      then modify (with_localStorage
                     (Some (mkStorage m (capacity st) (readError st))))
      else throw "QuotaExceededError"
  end.

(** [window.localStorage !== undefined] *)
Definition defined (ls : option Storage) : bool :=
  match ls with
  | Some _ => true
  | None => false
  end.

(** ** URL and Worker *)

Definition createObjectURL : JS unit :=
  call CreateObjectURL >> modify (with_workerURL (Some true)).

Definition revokeObjectURL : JS unit :=
  call RevokeObjectURL >>
  modify (λ w, with_workerURL (const false <$> workerURL w) w).

Definition new_Worker : JS unit :=
  call NewWorker >> modify (with_worker (Some (mkWorker [] 0))).

Definition worker_addEventListener (type : string) (l : WorkerListener)
  : JS unit :=
  call (WorkerAddEventListener type) >>
  modify (λ w, with_worker
                 ((λ k, mkWorker (listeners k ++ [l]) (posted k)) <$> worker w)
                 w).

Definition postMessage : JS unit :=
  call PostMessage >>
  modify (λ w, with_worker
                 ((λ k, mkWorker (listeners k) (S (posted k))) <$> worker w)
                 w).

(** Settling the promise [generate] returns. *)
Definition generate_settle (s : PromiseState URLs) : JS unit :=
  modify (λ w, match promise w with
               | Pending => with_promise s w
               | _ => w
               end).

Definition generate_resolve (urls : URLs) : JS unit :=
  call (GenResolve urls) >> generate_settle (Fulfilled urls).

Definition generate_reject (e : error) : JS unit :=
  call (GenReject e) >> generate_settle (Rejected e).

(** ** Events *)
Inductive Event :=
| WorkerMessage (d : MessageData)   (* "message" on the worker *)
| WorkerError (e : error)           (* "error" on the worker, event.error = e *)
| ImageLoad (s : Slot)              (* native "load" on result.search or .area *)
| ImageError (s : Slot).            (* native "error" on an image *)

(** An exception that leaves a listener is reported, not propagated. *)
Definition guarded (m : JS unit) : JS unit :=
  try_catch m (λ e, call (Uncaught e)).

Fixpoint dispatch_to {L} (run : L → JS unit) (ls : list L) : JS unit :=
  match ls with
  | [] => ret tt
  | l :: ls => guarded (run l) >> dispatch_to run ls
  end.

Section Loader.

(** [RawImageData.from(d).toCanvas().toDataURL()]: RawImageData.js and the
    canvas are not part of SMAAImageLoader.js; the conversion is a
    parameter. *)
Variable toDataURL : ImageData → string.

Definition convert (d : ImageData) : JS string :=
  call (ToDataURL d) >> ret (toDataURL d).

(** *** generate, lines 13-47 *)

(** Lines 21-41: the "message" listener. *)
Definition onmessage (disableCache : bool) (d : MessageData) : JS unit :=
  let* url0 := convert (searchImageData d) in
  let* url1 := convert (areaImageData d) in
  let* ls := gets localStorage in
  (if negb disableCache && defined ls
   then setItem "smaa-search" url0 >> setItem "smaa-area" url1
   else ret tt) >>
  revokeObjectURL >>
  generate_resolve (url0, url1).

(** Line 20: the "error" listener. *)
Definition onerror (e : error) : JS unit :=
  generate_reject e.

Definition generate (disableCache : bool) : JS unit :=
  (* 15-16 *)
  createObjectURL >>
  new_Worker >>
  (* 18-45: new Promise(executor) *)
  try_catch
    (worker_addEventListener "error" OnWorkerError >>
     worker_addEventListener "message" (OnWorkerMessage disableCache) >>
     postMessage)
    (λ e, generate_settle (Rejected e)).

(** *** SMAAImageLoader.load, lines 95-158 *)

Definition image_addEventListener (s : Slot) (l : ImageListener) : JS unit :=
  call (ImageAddEventListener s "load") >>
  match s with
  | Search =>
      modify (λ w, with_search
                     (mkImage (src (search w))
                        (loadListeners (search w) ++ [l]))
                     w)
  | Area =>
      modify (λ w, with_area
                     (mkImage (src (area w))
                        (loadListeners (area w) ++ [l]))
                     w)
  end.

Definition set_src (s : Slot) (url : string) : JS unit :=
  call (SetSrc s url) >>
  match s with
  | Search =>
      modify (λ w, with_search
                     (mkImage (Some url) (loadListeners (search w))) w)
  | Area =>
      modify (λ w, with_area
                     (mkImage (Some url) (loadListeners (area w))) w)
  end.

(** Lines 129-134 and 136-141. *)
Definition onload (l : ImageListener) : JS unit :=
  match l with
  | SearchLoaded =>
      itemEnd External "smaa-search" >> itemEnd Internal "smaa-search"
  | AreaLoaded =>
      itemEnd External "smaa-area" >> itemEnd Internal "smaa-area"
  end.

(** Lines 127-145: the callback given to [then]. *)
Definition then_callback (urls : URLs) : JS unit :=
  image_addEventListener Search SearchLoaded >>
  image_addEventListener Area AreaLoaded >>
  set_src Search urls.1 >>
  set_src Area urls.2.

(** Lines 146-154: the callback given to [catch]. *)
Definition catch_callback (e : error) : JS unit :=
  itemError External "smaa-search" >>
  itemError External "smaa-area" >>
  call (OnError e) >>
  reject e.

(** Lines 105-156: the executor of the promise [load] returns. *)
Definition executor : JS unit :=
  (* 107-110: result = { search: new Image(), area: new Image() } *)
  modify (with_search new_Image) >>
  modify (with_area new_Image) >>
  (* 112-117: internalManager.onLoad = ... *)
  modify (with_internalOnLoad true) >>
  (* 119-122: cachedURLs *)
  let* dc := gets disableCache in
  let* ls := gets localStorage in
  let* cachedURLs :=
    (if negb dc && defined ls
     then let* a := getItem "smaa-search" in
          let* b := getItem "smaa-area" in
          ret (a, b)
     else ret (None, None)) in
  (* 124-125: promise *)
  match cachedURLs with
  | (Some a, Some b) => modify (with_promise (Fulfilled (a, b)))
  | _ => generate dc
  end >>
  (* 127-154: promise.then(...).catch(...) *)
  modify (with_reaction Waiting).

Definition load : JS unit :=
  (* 98: internalManager = new LoadingManager() *)
  modify (with_internalManager new_LoadingManager) >>
  modify (with_internalOnLoad false) >>
  (* 100-103 *)
  itemStart External "smaa-search" >>
  itemStart External "smaa-area" >>
  itemStart Internal "smaa-search" >>
  itemStart Internal "smaa-area" >>
  (* 105: new Promise(executor); an exception in the executor rejects it *)
  try_catch executor (λ e, settle (Rejected e)).

(** *** The event loop *)

(** The reactions of [promise.then(...).catch(...)], run once [promise] is
    settled.  An exception in the [then] callback reaches the [catch] one. *)
Definition microtasks : JS unit :=
  let* r := gets reaction in
  let* p := gets promise in
  match r, p with
  | Waiting, Fulfilled urls =>
      modify (with_reaction Done) >>
      try_catch (then_callback urls) catch_callback
  | Waiting, Rejected e =>
      modify (with_reaction Done) >>
      catch_callback e
  | _, _ => ret tt
  end.

Definition on_worker (ev : Event) (l : WorkerListener) : JS unit :=
  match ev, l with
  | WorkerMessage d, OnWorkerMessage dc => onmessage dc d
  | WorkerError e, OnWorkerError => onerror e
  | _, _ => ret tt
  end.

Definition image (s : Slot) (w : World) : Image :=
  match s with
  | Search => search w
  | Area => area w
  end.

Definition dispatch (ev : Event) : JS unit :=
  match ev with
  | WorkerMessage _ | WorkerError _ =>
      let* k := gets worker in
      match k with
      | Some k => dispatch_to (on_worker ev) (listeners k)
      | None => ret tt
      end
  | ImageLoad s =>
      let* ls := gets (λ w, loadListeners (image s w)) in
      dispatch_to onload ls
  | ImageError _ => ret tt
  end.

(** One macrotask: the listeners of the event, then the microtasks. *)
Definition deliver (w : World) (ev : Event) : World :=
  exec (dispatch ev >> microtasks) w.

Definition run (evs : list Event) (w : World) : World :=
  foldl deliver w evs.

(** [hear ev w]: the image whose "load" event [ev] is, provided its [src]
    had been assigned when the event fired; [hearing] collects these along a
    run, newest first. *)
Definition hear (ev : Event) (w : World) : list Slot :=
  match ev with
  | ImageLoad s =>
      match src (image s w) with
      | Some _ => [s]
      | None => []
      end
  | _ => []
  end.

Fixpoint hearing (evs : list Event) (w : World) (h : list Slot) : list Slot :=
  match evs with
  | [] => h
  | ev :: evs => hearing evs (deliver w ev) (hear ev w ++ h)
  end.

(** The world right after the caller's [load()] returned and the pending
    microtasks ran. *)
Definition loaded (st : option Storage) (dc : bool) (ext : LoadingManager)
  : World :=
  exec (load >> microtasks) (initial st dc ext).

(** The caller invokes [load()]; the browser then delivers [evs]. *)
Definition load_run (st : option Storage) (dc : bool) (ext : LoadingManager)
    (evs : list Event) : World :=
  run evs (loaded st dc ext).

(** [generate(dc)] invoked on its own; the browser then delivers [evs]. *)
Definition generated (st : option Storage) (dc : bool) : World :=
  exec (generate dc >> microtasks) (initial st dc new_LoadingManager).

Definition generate_run (st : option Storage) (dc : bool)
    (evs : list Event) : World :=
  run evs (generated st dc).

End Loader.

(** ** Counting and projecting calls *)

#[global] Instance Slot_eq_dec : EqDecision Slot.
Proof. solve_decision. Defined.

#[global] Instance Manager_eq_dec : EqDecision Manager.
Proof. solve_decision. Defined.

#[global] Instance ImageData_eq_dec : EqDecision ImageData.
Proof. solve_decision. Defined.

#[global] Instance MessageData_eq_dec : EqDecision MessageData.
Proof. solve_decision. Defined.

#[global] Instance Sources_eq_dec : EqDecision Sources.
Proof. solve_decision. Defined.

#[global] Instance Call_eq_dec : EqDecision Call.
Proof. unfold URLs, error. solve_decision. Defined.

#[global] Instance Event_eq_dec : EqDecision Event.
Proof. unfold error. solve_decision. Defined.

(** How often [x] occurs in [l]. *)
Fixpoint occ {A} `{EqDecision A} (x : A) (l : list A) : nat :=
  match l with
  | [] => 0
  | y :: l => (if decide (x = y) then 1 else 0) + occ x l
  end.

(** The calls that notify somebody: tracker calls, the caller's callbacks and
    the settling of the promise [load] returns. *)
Definition is_note (c : Call) : bool :=
  match c with
  | ItemStart _ _ | ItemEnd _ _ | ItemError _ _
  | OnLoad _ | OnError _ | Resolve _ | Reject _ => true
  | _ => false
  end.

Definition notes (cs : list Call) : list Call := List.filter is_note cs.

Definition is_start (c : Call) : bool :=
  match c with
  | ItemStart _ _ => true
  | _ => false
  end.

(** The calls that create, wire, trigger or terminate a worker. *)
Definition is_lifecycle (c : Call) : bool :=
  match c with
  | CreateObjectURL | NewWorker | WorkerAddEventListener _
  | PostMessage | Terminate => true
  | _ => false
  end.

Definition lifecycle (cs : list Call) : list Call :=
  List.filter is_lifecycle cs.

(** ** Reachable worlds

    The logs below are newest first, like [calls]. *)

(** Lines 100-103. *)
Definition starts : list Call :=
  [ItemStart Internal "smaa-area"; ItemStart Internal "smaa-search";
   ItemStart External "smaa-area"; ItemStart External "smaa-search"].

(** Lines 15-16, 20, 21 and 43. *)
Definition spawn_calls : list Call :=
  [PostMessage; WorkerAddEventListener "message";
   WorkerAddEventListener "error"; NewWorker; CreateObjectURL].

(** The worker as [generate dc] leaves it. *)
Definition spawned (dc : bool) : Worker :=
  mkWorker [OnWorkerError; OnWorkerMessage dc] 1.

Definition worker_calls (k : option Worker) : list Call :=
  match k with
  | Some _ => spawn_calls
  | None => []
  end.

(** The notifications after the images fired the "load" events [hs] (newest
    first) with their listeners in place: every event ends its item on the
    external and then the internal manager, and the second one completes the
    internal manager. *)
Fixpoint heard_log (r : Sources) (hs : list Slot) : list Call :=
  match hs with
  | [] => starts
  | s :: hs =>
      (if Nat.eqb (S (length hs)) 2 then [Resolve r; OnLoad r] else [])
      ++ ItemEnd Internal (key s) :: ItemEnd External (key s)
      :: heard_log r hs
  end.

(** The calls of the [catch] callback, lines 148-152. *)
Definition failure_log (e : error) : list Call :=
  [Reject e; OnError e; ItemError External "smaa-area";
   ItemError External "smaa-search"].

(** The worlds a call of [load] can reach.  [dc] is [this.disableCache] at
    the time of the call, and the index lists the "load" events heard so
    far.  There are four phases: the executor threw; the worker has not
    answered; the URLs arrived and the images are wired; the URL promise
    rejected. *)
Inductive Inv (dc : bool) : list Slot → World → Prop :=
| Inv_thrown ls ext e cs :
    starts `suffix_of` cs →
    notes cs = starts →
    lifecycle cs = [] →
    Inv dc []
      (mkWorld ls dc ext (mkLoadingManager true 0 2) true new_Image new_Image
         None None Pending Unchained (Rejected e) cs)
| Inv_awaiting ls ext cs :
    starts `suffix_of` cs →
    notes cs = starts →
    lifecycle cs = spawn_calls →
    Inv dc []
      (mkWorld ls dc ext (mkLoadingManager true 0 2) true new_Image new_Image
         (Some (spawned dc)) (Some true) Pending Waiting Pending cs)
| Inv_listening ls ext il k url u0 u1 hs cs :
    starts `suffix_of` cs →
    notes cs = heard_log (mkSources (Some u0) (Some u1)) hs →
    k = None ∨ k = Some (spawned dc) →
    lifecycle cs = worker_calls k →
    Inv dc hs
      (mkWorld ls dc ext (mkLoadingManager il (length hs) 2) true
         (mkImage (Some u0) [SearchLoaded]) (mkImage (Some u1) [AreaLoaded])
         k url (Fulfilled (u0, u1)) Done
         (if Nat.leb 2 (length hs)
          then Fulfilled (mkSources (Some u0) (Some u1))
          else Pending)
         cs)
| Inv_failed ls ext url e cs :
    starts `suffix_of` cs →
    notes cs = failure_log e ++ starts →
    lifecycle cs = spawn_calls →
    Inv dc []
      (mkWorld ls dc ext (mkLoadingManager true 0 2) true new_Image new_Image
         (Some (spawned dc)) (Some url) (Rejected e) Done (Rejected e) cs).

(** ** Notions used by the statements *)

(** The notifications in the order they were made. *)
Definition notifications (w : World) : list Call :=
  List.filter is_note (trace w).

(** An image fires its native "load" event at most once. *)
Definition one_shot (evs : list Event) : Prop :=
  ∀ s, occ (ImageLoad s) evs ≤ 1.

(** A manager has completed once every started item has ended. *)
Definition completed (m : LoadingManager) : Prop :=
  itemsTotal m ≤ itemsLoaded m.


(** A cache miss: caching is disabled, or there is no store, or a readable
    store lacks one of the two keys. *)
Definition miss (st : option Storage) (dc : bool) : Prop :=
  dc = true ∨ st = None ∨
  ∃ s, st = Some s ∧ readError s = None ∧
       (items s !! "smaa-search" = None ∨ items s !! "smaa-area" = None).

(** The pair [urls] the message listener builds from [event.data]. *)
Definition urls_of (toDataURL : ImageData → string) (d : MessageData)
  : URLs :=
  (toDataURL (searchImageData d), toDataURL (areaImageData d)).

Definition is_gen_resolve (c : Call) : bool :=
  match c with
  | GenResolve _ => true
  | _ => false
  end.

(** A store keeps its bound and its read fault, and does not come or go:
    [o] is [None] where there is no store. *)
Definition store_like (o : option (option nat * option error))
    (ls : option Storage) : Prop :=
  match o with
  | None => ls = None
  | Some (cap, re) => ∃ m, ls = Some (mkStorage m cap re)
  end.

Definition shape (st : option Storage)
  : option (option nat * option error) :=
  (λ s, (capacity s, readError s)) <$> st.

(** The worlds a call of [generate dc] on its own can reach. *)
Inductive GInv (dc : bool) (o : option (option nat * option error))
  : World → Prop :=
| GInv_intro ls dcw ext url p cs :
    store_like o ls →
    lifecycle cs = spawn_calls →
    occ RevokeObjectURL cs = length (List.filter is_gen_resolve cs) →
    (∀ u, p = Fulfilled u → 0 < occ RevokeObjectURL cs) →
    GInv dc o
      (mkWorld ls dcw ext new_LoadingManager false new_Image new_Image
         (Some (spawned dc)) (Some url) p Unchained Pending cs).

(** A stand-in for the canvas conversion, for the concrete runs below. *)
Definition sample_toDataURL (d : ImageData) : string :=
  String.append "data:"
    (String.string_of_list_ascii
       (map (λ n, Ascii.ascii_of_nat (65 + n)) (data d))).

Definition sample_data (a b : nat) : MessageData :=
  mkMessageData (mkImageData 1 1 [a]) (mkImageData 1 1 [b]).

(** The end calls of the load events [hs], newest first. *)
Fixpoint ends_of (hs : list Slot) : list Call :=
  match hs with
  | [] => []
  | s :: hs =>
      ItemEnd Internal (key s) :: ItemEnd External (key s) :: ends_of hs
  end.

(** Two worlds that differ in the caller's manager at most. *)
Definition same_but_external (w1 w2 : World) : Prop :=
  ∃ x, w1 = with_externalManager x w2.


(** A store that already holds both images. *)
Definition sample_cache : gmap string string :=
  {[ "smaa-search" := "data:S"; "smaa-area" := "data:T" ]}.

(** ** The loader object *)




(** ** More projections of the log *)

Definition is_store_call (c : Call) : bool :=
  match c with
  | GetItem _ | SetItem _ _ => true
  | _ => false
  end.

Definition is_image_call (c : Call) : bool :=
  match c with
  | ImageAddEventListener _ _ | SetSrc _ _ => true
  | _ => false
  end.

Definition is_callback (c : Call) : bool :=
  match c with
  | OnLoad _ | OnError _ => true
  | _ => false
  end.

(** What a run may change of a store [st]: nothing but the values under the
    two fixed keys.  The store does not appear or vanish, and keeps its bound
    and its read fault. *)
Definition store_frame (st ls : option Storage) : Prop :=
  match st, ls with
  | None, None => True
  | Some s, Some s' =>
      capacity s' = capacity s ∧ readError s' = readError s
      ∧ ∀ k, k ≠ "smaa-search" → k ≠ "smaa-area" →
             items s' !! k = items s !! k
  | _, _ => False
  end.

(** The loader leaves the store alone: caching is disabled or there is no
    store. *)
Definition uncached (st : option Storage) (dc : bool) : Prop :=
  dc = true ∨ st = None.

(** No write can fail: caching is disabled, or there is no store, or the
    store has no bound. *)
Definition writable (st : option Storage) (dc : bool) : Prop :=
  dc = true ∨ ∀ s, st = Some s → capacity s = None.

(** The calls that wire the two images once the URLs [u] are there, newest
    first (lines 129-144). *)
Definition wiring (u : URLs) : list Call :=
  [SetSrc Area u.2; SetSrc Search u.1;
   ImageAddEventListener Area "load"; ImageAddEventListener Search "load"].

(** ** Symbolic execution *)

(** Unfolds the program on a world whose control fields are known. *)
Ltac js :=
  cbv beta iota zeta delta
    [loaded generated deliver run exec dispatch dispatch_to guarded on_worker
     onmessage onerror onload microtasks then_callback catch_callback load
     executor generate image_addEventListener set_src convert image hear
     bind ret throw try_catch gets modify call
     itemStart itemEnd itemError result settle resolve reject
     internalManager_onLoad getItem setItem defined
     createObjectURL revokeObjectURL new_Worker worker_addEventListener
     postMessage generate_settle generate_resolve generate_reject
     with_localStorage with_externalManager with_internalManager with_search
     with_internalOnLoad with_area with_worker with_workerURL with_promise
     with_reaction
     with_returned with_calls initial
     localStorage disableCache externalManager internalManager internalOnLoad
     search area
     worker workerURL promise reaction returned calls
     listeners posted src loadListeners items capacity readError
     started ended complete new_LoadingManager new_Image spawned
     negb andb fst snd fmap option_fmap option_map const app foldl];
  cbn [isLoading itemsLoaded itemsTotal].

Ltac js_case :=
  match goal with
  | |- context [fits None ?m] => change (fits None m) with true
  | |- context [match ?m !! ?k with _ => _ end] => destruct (m !! k)
  | |- context [if fits ?c ?m then _ else _] => destruct (fits c m)
  end.

Ltac js_all := js; repeat (js_case; js).

(** Evaluates counts and projections of a log with a known head. *)
Ltac log_simpl :=
  unfold notes, lifecycle, failure_log, spawn_calls in *;
  cbn [List.filter is_note is_lifecycle is_start occ heard_log worker_calls
       length Nat.eqb Nat.leb app];
  repeat (case_decide; try discriminate; try congruence);
  repeat match goal with
         | H : List.filter _ _ = _ |- _ => rewrite H; clear H
         end;
  try done.


Ltac suffix_tac :=
  first [ assumption
        | by exists (@nil Call)
        | apply suffix_cons_r; suffix_tac ].

Ltac awaiting := apply Inv_awaiting; [suffix_tac | by log_simpl ..].
Ltac thrown := apply Inv_thrown; [suffix_tac | by log_simpl ..].
Ltac failed := apply Inv_failed; [suffix_tac | by log_simpl ..].
Ltac listening hs :=
  apply (Inv_listening _ _ _ _ _ _ _ _ hs);
  [suffix_tac | by log_simpl | by auto | by log_simpl].

Section Reachability.

Variable toDataURL : ImageData → string.

Lemma Inv_load st dc ext : Inv dc [] (loaded st dc ext).
Proof.
  destruct dc; [|destruct st as [[m cap [e|]]|]]; js_all;
    first [ thrown | awaiting | listening (@nil Slot) ].
Qed.

Lemma Inv_deliver dc h w ev :
  Inv dc h w → Inv dc (hear ev w ++ h) (deliver toDataURL w ev).
Proof.
  destruct 1 as [ls ext e cs Hs Hn Hw | ls ext cs Hs Hn Hw
                | ls ext il k url u0 u1 hs cs Hs Hn Hk Hw
                | ls ext url e cs Hs Hn Hw];
    destruct ev as [d|e'|[]|[]].
  all: try (js_all; thrown).
  all: try (js_all; awaiting).
  - (* the worker answers *)
    destruct dc, ls as [[m cap re]|]; js_all;
      first [ listening (@nil Slot) | awaiting ].
  - (* the worker fails *)
    js_all; failed.
  - (* a message after the URLs arrived *)
    destruct Hk as [->| ->]; [js_all; by listening hs|].
    destruct dc, ls as [[m cap re]|]; js_all; listening hs.
  - destruct Hk as [->| ->]; js_all; listening hs.
  - (* the search image loaded *)
    destruct hs as [|a [|b hs]]; js_all;
      first [ listening (Search :: a :: b :: hs) | listening [Search; a]
            | listening [Search] ].
  - (* the area image loaded *)
    destruct hs as [|a [|b hs]]; js_all;
      first [ listening (Area :: a :: b :: hs) | listening [Area; a]
            | listening [Area] ].
  - js_all; listening hs.
  - js_all; listening hs.
  - (* a message after the worker failed *)
    destruct dc, ls as [[m cap re]|]; js_all; failed.
  - js_all; failed.
  - js_all; failed.
  - js_all; failed.
  - js_all; failed.
  - js_all; failed.
Qed.

Lemma Inv_run dc evs : ∀ h w,
  Inv dc h w → Inv dc (hearing toDataURL evs w h) (run toDataURL evs w).
Proof.
  induction evs as [|ev evs IH]; intros h w HI; [done|].
  apply IH, Inv_deliver, HI.
Qed.

Lemma Inv_load_run st dc ext evs :
  Inv dc (hearing toDataURL evs (loaded st dc ext) [])
    (load_run toDataURL st dc ext evs).
Proof. apply Inv_run, Inv_load. Qed.

End Reachability.

(** ** Counting lemmas *)

Lemma occ_app {A} `{EqDecision A} (x : A) (l k : list A) :
  occ x (l ++ k) = occ x l + occ x k.
Proof. induction l as [|y l IH]; cbn; [done|]. rewrite IH. lia. Qed.

Lemma occ_rev {A} `{EqDecision A} (x : A) (l : list A) :
  occ x (rev l) = occ x l.
Proof.
  induction l as [|y l IH]; cbn; [done|].
  rewrite occ_app, IH. cbn. lia.
Qed.

Lemma occ_filter (p : Call → bool) (x : Call) (l : list Call) :
  p x = true → occ x (List.filter p l) = occ x l.
Proof.
  intros Hp. induction l as [|y l IH]; cbn; [done|].
  destruct (p y) eqn:Hy; cbn; rewrite IH; [done|].
  case_decide; [congruence|done].
Qed.

Lemma occ_notes (x : Call) (w : World) :
  is_note x = true → occ x (trace w) = occ x (notes (calls w)).
Proof.
  intros Hx. unfold trace, notes. by rewrite occ_rev, occ_filter.
Qed.

Lemma notifications_rev (w : World) :
  notifications w = rev (notes (calls w)).
Proof. unfold notifications, trace, notes. apply List.filter_rev. Qed.

Lemma filter_start_notes (cs : list Call) :
  List.filter is_start (notes cs) = List.filter is_start cs.
Proof.
  unfold notes. induction cs as [|c cs IH]; [done|].
  destruct c; cbn; by rewrite ?IH.
Qed.

(** *** The log of heard load events *)

Lemma heard_log_starts r hs :
  List.filter is_start (heard_log r hs) = starts.
Proof.
  induction hs as [|s hs IH]; [done|]. cbn [heard_log].
  rewrite List.filter_app. cbn. rewrite IH.
  by destruct (Nat.eqb _ _).
Qed.

Lemma heard_log_start r hs m s :
  occ (ItemStart m (key s)) (heard_log r hs) = 1.
Proof.
  induction hs as [|s' hs IH]; [by destruct m, s|]. cbn [heard_log].
  rewrite occ_app. cbn. rewrite IH.
  destruct (Nat.eqb _ _); cbn; repeat (case_decide; try discriminate); lia.
Qed.

Lemma heard_log_end r hs m s :
  occ (ItemEnd m (key s)) (heard_log r hs) = occ s hs.
Proof.
  induction hs as [|s' hs IH]; [by destruct m, s|]. cbn [heard_log].
  rewrite occ_app. cbn. rewrite IH.
  destruct (Nat.eqb _ _), m, s, s'; cbn;
    repeat (case_decide; try discriminate; try congruence); lia.
Qed.

Lemma heard_log_error r hs m u :
  occ (ItemError m u) (heard_log r hs) = 0.
Proof.
  induction hs as [|s' hs IH].
  - cbn. by repeat (case_decide; try discriminate).
  - cbn [heard_log]. rewrite occ_app. cbn. rewrite IH.
    destruct (Nat.eqb _ _); cbn; by repeat (case_decide; try discriminate).
Qed.

Lemma length_slots (hs : list Slot) :
  length hs = occ Search hs + occ Area hs.
Proof.
  induction hs as [|[] hs IH]; cbn; [done|..];
    repeat (case_decide; try discriminate; try congruence); lia.
Qed.

(** The second load event heard completes the internal manager: its two end
    calls are followed at once by onLoad(r) and resolve(r); later events only
    add end calls. *)
Lemma heard_log_resolved r hs :
  2 ≤ length hs →
  ∃ a b later,
    heard_log r hs =
      ends_of later
      ++ [Resolve r; OnLoad r; ItemEnd Internal (key b);
          ItemEnd External (key b); ItemEnd Internal (key a);
          ItemEnd External (key a)] ++ starts.
Proof.
  induction hs as [|s hs IH]; cbn [length]; [lia|]. intros Hlen.
  destruct hs as [|a [|b hs]]; cbn [length] in *; [lia|..].
  - by exists a, s, [].
  - destruct IH as (a' & b' & later & IH); [lia|].
    exists a', b', (s :: later).
    change (heard_log r (s :: a :: b :: hs))
      with (ItemEnd Internal (key s) :: ItemEnd External (key s)
            :: heard_log r (a :: b :: hs)).
    by rewrite IH.
Qed.

Lemma ends_of_rev later :
  Forall (λ c, ∃ m u, c = ItemEnd m u) (rev (ends_of later)).
Proof.
  apply Forall_forall. intros c Hc. apply list_elem_of_In, in_rev in Hc.
  induction later as [|s later IH]; cbn in Hc; [done|].
  destruct Hc as [<-|[<-|Hc]]; eauto.
Qed.

(** ** What every reachable world satisfies *)

Section LoadProperties.

Variable toDataURL : ImageData → string.

Lemma Inv_prefix dc h w : Inv dc h w → starts `suffix_of` calls w.
Proof. by destruct 1. Qed.

Lemma Inv_filter_start dc h w :
  Inv dc h w → List.filter is_start (calls w) = starts.
Proof.
  intros HI. rewrite <- filter_start_notes.
  destruct HI as [? ? ? ? _ Hn _ | ? ? ? _ Hn _
                 | ? ? ? ? ? ? ? ? ? _ Hn _ _ | ? ? ? ? ? _ Hn _];
    cbn [calls]; rewrite Hn; try done.
  apply heard_log_starts.
Qed.

Lemma Inv_counts dc h w m s :
  Inv dc h w →
  occ (ItemStart m (key s)) (notes (calls w)) = 1
  ∧ occ (ItemEnd m (key s)) (notes (calls w)) = occ s h
  ∧ occ (ItemError Internal (key s)) (notes (calls w)) = 0
  ∧ occ (ItemError External (key s)) (notes (calls w))
    = match promise w with Rejected _ => 1 | _ => 0 end
  ∧ (∀ e, promise w = Rejected e → h = []).
Proof.
  destruct 1 as [? ? ? ? _ Hn _ | ? ? ? _ Hn _
                | ? ? ? ? ? ? ? ? ? _ Hn _ _ | ? ? ? ? ? _ Hn _];
    cbn [calls promise]; rewrite Hn.
  3: { rewrite heard_log_start, heard_log_end, !heard_log_error.
       by repeat split. }
  all: by destruct m, s; vm_compute.
Qed.

Lemma hearing_le s evs : ∀ w h,
  occ s (hearing toDataURL evs w h) ≤ occ s h + occ (ImageLoad s) evs.
Proof.
  induction evs as [|ev evs IH]; intros w h; cbn [hearing occ]; [lia|].
  etrans; [apply IH|]. rewrite occ_app.
  destruct ev as [d|e|s'|s']; cbn [hear occ];
    try (case_decide; [discriminate|lia]).
  destruct (src _); cbn [occ]; repeat case_decide; try congruence; lia.
Qed.

(** C9: every call of [load] begins with the four start calls, the external
    manager's two before the internal manager's two, and makes no other
    start call afterwards, whatever the browser delivers. *)
Theorem start_order st dc ext evs :
  let w := load_run toDataURL st dc ext evs in
  (∃ rest,
     trace w =
       [ItemStart External "smaa-search"; ItemStart External "smaa-area";
        ItemStart Internal "smaa-search"; ItemStart Internal "smaa-area"]
       ++ rest)
  ∧ List.filter is_start (trace w) =
      [ItemStart External "smaa-search"; ItemStart External "smaa-area";
       ItemStart Internal "smaa-search"; ItemStart Internal "smaa-area"].
Proof.
  intros w. pose proof (Inv_load_run toDataURL st dc ext evs) as HI.
  fold w in HI. split.
  - destruct (Inv_prefix _ _ _ HI) as [later Hl].
    exists (rev later). unfold trace. rewrite Hl, rev_app_distr. done.
  - unfold trace. rewrite List.filter_rev, (Inv_filter_start _ _ _ HI). done.
Qed.


(** *** What a macrotask leaves alone *)

Lemma deliver_stable dc h w ev :
  Inv dc h w →
  worker (deliver toDataURL w ev) = worker w
  ∧ (promise w ≠ Pending → promise (deliver toDataURL w ev) = promise w)
  ∧ (returned w ≠ Pending → returned (deliver toDataURL w ev) = returned w).
Proof.
  destruct 1 as [ls ext e cs _ _ _ | ls ext cs _ _ _
                | ls ext il k url u0 u1 hs cs _ _ Hk _
                | ls ext url e cs _ _ _];
    destruct ev as [d|e'|[]|[]].
  all: try (js_all; by repeat split).
  - destruct dc, ls as [[m cap re]|]; js_all; by repeat split.
  - destruct Hk as [->| ->]; [js_all; by repeat split|].
    destruct dc, ls as [[m cap re]|]; js_all; by repeat split.
  - destruct Hk as [->| ->]; js_all; by repeat split.
  - destruct hs as [|a [|b hs]]; js_all; by repeat split.
  - destruct hs as [|a [|b hs]]; js_all; by repeat split.
  - destruct dc, ls as [[m cap re]|]; js_all; by repeat split.
Qed.

Lemma run_stable dc evs : ∀ h w,
  Inv dc h w →
  worker (run toDataURL evs w) = worker w
  ∧ (promise w ≠ Pending → promise (run toDataURL evs w) = promise w)
  ∧ (returned w ≠ Pending → returned (run toDataURL evs w) = returned w).
Proof.
  induction evs as [|ev evs IH]; intros h w HI; [done|].
  destruct (deliver_stable dc h w ev HI) as (Hw & Hp & Hr).
  destruct (IH _ _ (Inv_deliver toDataURL dc h w ev HI)) as (Hw' & Hp' & Hr').
  change (run toDataURL (ev :: evs) w)
    with (run toDataURL evs (deliver toDataURL w ev)).
  rewrite Hw'. split; [done|].
  split; intros Hne.
  - rewrite Hp'; rewrite Hp; done.
  - rewrite Hr'; rewrite Hr; done.
Qed.

Lemma Inv_lifecycle dc h w :
  Inv dc h w → lifecycle (calls w) = worker_calls (worker w).
Proof. by destruct 1. Qed.

Lemma Inv_fulfilled dc h w a b :
  Inv dc h w → promise w = Fulfilled (a, b) →
  src (search w) = Some a ∧ src (area w) = Some b
  ∧ ∀ r, returned w = Fulfilled r → r = mkSources (Some a) (Some b).
Proof.
  destruct 1; cbn [promise search area returned src]; try done.
  intros [= -> ->]. repeat split. intros r.
  destruct (Nat.leb _ _); congruence.
Qed.

Lemma Inv_rejected dc h w e :
  Inv dc h w → promise w = Rejected e →
  notes (calls w) = failure_log e ++ starts ∧ returned w = Rejected e.
Proof.
  destruct 1; cbn [promise calls returned]; try done.
  by intros [= ->].
Qed.

(** *** The returned promise and the internal manager *)

Lemma Inv_resolution dc h w :
  Inv dc h w →
  itemsTotal (internalManager w) = 2
  ∧ itemsLoaded (internalManager w) = length h
  ∧ (length h < 2 → ∀ r, returned w ≠ Fulfilled r)
  ∧ (2 ≤ length h →
     let r := mkSources (src (search w)) (src (area w)) in
     returned w = Fulfilled r ∧ notes (calls w) = heard_log r h).
Proof.
  destruct 1 as [? ? ? ? _ _ _ | ? ? ? _ _ _
                | ? ? ? ? ? u0 u1 hs ? _ Hn _ _ | ? ? ? ? ? _ _ _];
    cbn [internalManager itemsTotal itemsLoaded returned calls search area
         src length].
  3: { repeat split; try done.
       - intros Hlt r. destruct (Nat.leb_spec 2 (length hs)); [lia|done].
       - destruct (Nat.leb_spec 2 (length hs)); [done|lia]. }
  all: repeat split; try done; lia.
Qed.

Lemma hearing_fulfilled dc s evs : ∀ h w u,
  Inv dc h w → promise w = Fulfilled u →
  occ s (hearing toDataURL evs w h) = occ s h + occ (ImageLoad s) evs.
Proof.
  induction evs as [|ev evs IH]; intros h w [a b] HI Hp; cbn [hearing occ];
    [lia|].
  destruct (deliver_stable dc h w ev HI) as (_ & Hp' & _).
  rewrite (IH _ _ (a, b) (Inv_deliver toDataURL dc h w ev HI))
    by (rewrite Hp'; [done|by rewrite Hp]).
  rewrite occ_app.
  destruct (Inv_fulfilled _ _ _ _ _ HI Hp) as (Hs & Ha & _).
  destruct ev as [d|e|s'|s']; cbn [hear occ];
    try (case_decide; [discriminate|lia]).
  destruct s'; cbn [image]; rewrite ?Hs, ?Ha; cbn [occ];
    repeat case_decide; try congruence; lia.
Qed.

(** C3: on a cache hit, [load] never goes near a worker ([generate] is not
    called: no blob URL, no worker, no message), and the two images get
    exactly the two cached strings, also in the pair the promise resolves
    with, which it does once both images have fired "load". *)
Theorem cache_hit m cap a b ext evs :
  m !! "smaa-search" = Some a →
  m !! "smaa-area" = Some b →
  let w := load_run toDataURL (Some (mkStorage m cap None)) false ext evs in
  List.filter is_lifecycle (trace w) = []
  ∧ occ NewWorker (trace w) = 0
  ∧ worker w = None
  ∧ src (search w) = Some a
  ∧ src (area w) = Some b
  ∧ (∀ r, returned w = Fulfilled r → r = mkSources (Some a) (Some b))
  ∧ (0 < occ (ImageLoad Search) evs → 0 < occ (ImageLoad Area) evs →
     returned w = Fulfilled (mkSources (Some a) (Some b))).
Proof.
  intros Ha Hb w.
  pose proof (Inv_load (Some (mkStorage m cap None)) false ext) as H0.
  pose proof (Inv_load_run toDataURL (Some (mkStorage m cap None)) false ext
                evs) as HI.
  destruct (run_stable false evs _ _ H0) as (Hw & Hp & _).
  fold (load_run toDataURL (Some (mkStorage m cap None)) false ext evs)
    in Hw, Hp.
  fold w in HI, Hw, Hp.
  assert (worker w = None ∧ promise w = Fulfilled (a, b)) as [Hk Hf].
  { rewrite Hw. revert Hp. js. rewrite Ha. js. rewrite Hb. js.
    intros Hp. split; [done|]. by apply Hp. }
  pose proof (Inv_lifecycle _ _ _ HI) as Hl. rewrite Hk in Hl.
  assert (List.filter is_lifecycle (trace w) = []) as Hlc.
  { unfold trace. rewrite List.filter_rev. fold (lifecycle (calls w)).
    by rewrite Hl. }
  split; [done|]. split.
  { rewrite <- (occ_filter is_lifecycle) by done. by rewrite Hlc. }
  split; [done|].
  destruct (Inv_fulfilled _ _ _ _ _ HI Hf) as (Hss & Hsa & Hr).
  repeat split; try done.
  intros H1 H2.
  destruct (Inv_resolution _ _ _ HI) as (_ & _ & _ & Hge).
  rewrite Hss, Hsa in Hge. apply Hge.
  assert (promise (loaded (Some (mkStorage m cap None)) false ext)
          = Fulfilled (a, b)) as Hf0.
  { js. rewrite Ha. js. rewrite Hb. by js. }
  rewrite length_slots,
    (hearing_fulfilled false Search evs _ _ _ H0 Hf0),
    (hearing_fulfilled false Area evs _ _ _ H0 Hf0).
  cbn [occ]. lia.
Qed.

(** C4: on a cache miss (a key or the store absent, or caching disabled)
    [load] returns normally, leaves its promise pending, and calls
    [generate] exactly once: one blob URL, one worker, one message, and none
    later, whatever the browser delivers. *)
Theorem cache_miss st dc ext evs :
  miss st dc →
  let w := load_run toDataURL st dc ext evs in
  (load (initial st dc ext)).1 = Normal tt
  ∧ returned (loaded st dc ext) = Pending
  ∧ List.filter is_lifecycle (trace w) =
      [CreateObjectURL; NewWorker; WorkerAddEventListener "error";
       WorkerAddEventListener "message"; PostMessage]
  ∧ occ NewWorker (trace w) = 1
  ∧ worker w = Some (spawned dc).
Proof.
  intros Hm w.
  pose proof (Inv_load st dc ext) as H0.
  pose proof (Inv_load_run toDataURL st dc ext evs) as HI.
  destruct (run_stable dc evs _ _ H0) as (Hw & _ & _).
  fold (load_run toDataURL st dc ext evs) in Hw. fold w in HI, Hw.
  assert ((load (initial st dc ext)).1 = Normal tt
          ∧ returned (loaded st dc ext) = Pending
          ∧ worker (loaded st dc ext) = Some (spawned dc)) as (Hn & Hr & Hk).
  { destruct Hm as [->|[->|(s & -> & Hre & Hmiss)]].
    - by js.
    - by destruct dc; js.
    - destruct s as [m cap re]. cbn in Hre, Hmiss. subst re.
      destruct dc; [by js|].
      destruct Hmiss as [Hs|Hs]; js;
        repeat (first [rewrite Hs | js_case]; js); done. }
  rewrite Hk in Hw.
  pose proof (Inv_lifecycle _ _ _ HI) as Hl. rewrite Hw in Hl.
  assert (List.filter is_lifecycle (trace w) = rev spawn_calls) as Hlc.
  { unfold trace. rewrite List.filter_rev. fold (lifecycle (calls w)).
    by rewrite Hl. }
  repeat split; try done.
  rewrite <- (occ_filter is_lifecycle) by done. by rewrite Hlc.
Qed.

(** C6: once the URL promise has rejected with [E], the notifications of the
    whole call are the four starts, then error("smaa-search") and
    error("smaa-area") on the external manager, then onError(E), then
    reject(E), and nothing else: the internal manager gets no terminal call
    and no second start.  The returned promise is rejected with [E]. *)
Theorem rejection_path st dc ext evs E :
  let w := load_run toDataURL st dc ext evs in
  promise w = Rejected E →
  notifications w =
    [ItemStart External "smaa-search"; ItemStart External "smaa-area";
     ItemStart Internal "smaa-search"; ItemStart Internal "smaa-area";
     ItemError External "smaa-search"; ItemError External "smaa-area";
     OnError E; Reject E]
  ∧ returned w = Rejected E.
Proof.
  intros w HE.
  pose proof (Inv_load_run toDataURL st dc ext evs) as HI. fold w in HI.
  destruct (Inv_rejected _ _ _ _ HI HE) as [Hn Hr].
  split; [|done]. by rewrite notifications_rev, Hn.
Qed.

(** *** The external manager is write-only *)


Lemma load_same_but_external st dc ext ext' :
  same_but_external (loaded st dc ext') (loaded st dc ext).
Proof.
  destruct dc; [|destruct st as [[m cap [e|]]|]]; js_all;
    eexists; js; reflexivity.
Qed.

Lemma deliver_same_but_external dc h w1 w2 ev :
  Inv dc h w2 → same_but_external w1 w2 →
  same_but_external (deliver toDataURL w1 ev) (deliver toDataURL w2 ev).
Proof.
  intros HI [x ->].
  destruct HI as [ls ext e cs _ _ _ | ls ext cs _ _ _
                 | ls ext il k url u0 u1 hs cs _ _ Hk _
                 | ls ext url e cs _ _ _];
    destruct ev as [d|e'|[]|[]].
  all: try (js_all; eexists; js; reflexivity).
  - destruct dc, ls as [[m cap re]|]; js_all; eexists; js; reflexivity.
  - destruct Hk as [->| ->]; [js_all; eexists; js; reflexivity|].
    destruct dc, ls as [[m cap re]|]; js_all; eexists; js; reflexivity.
  - destruct Hk as [->| ->]; js_all; eexists; js; reflexivity.
  - destruct hs as [|a [|b hs]]; js_all; eexists; js; reflexivity.
  - destruct hs as [|a [|b hs]]; js_all; eexists; js; reflexivity.
  - destruct dc, ls as [[m cap re]|]; js_all; eexists; js; reflexivity.
Qed.

Lemma run_same_but_external dc evs : ∀ h w1 w2,
  Inv dc h w2 → same_but_external w1 w2 →
  same_but_external (run toDataURL evs w1) (run toDataURL evs w2).
Proof.
  induction evs as [|ev evs IH]; intros h w1 w2 HI HR; [done|].
  apply (IH (hear ev w2 ++ h)).
  - by apply Inv_deliver.
  - by eapply deliver_same_but_external.
Qed.

(** C5: the returned promise is fulfilled exactly when the internal manager
    has completed.  At that moment the second end call on the internal
    manager is followed at once by onLoad(result) and resolve(result), with
    the same [result]; any later notification is an end call.  The outcome
    is the same for every external manager the caller may have supplied.
    With images that fire "load" at most once, the internal manager has
    completed exactly when both items have ended on it. *)
Theorem resolution st dc ext evs :
  let w := load_run toDataURL st dc ext evs in
  ((∃ r, returned w = Fulfilled r) ↔ completed (internalManager w))
  ∧ (∀ r, returned w = Fulfilled r →
       r = mkSources (src (search w)) (src (area w))
       ∧ ∃ a b later,
           notifications w =
             [ItemStart External "smaa-search"; ItemStart External "smaa-area";
              ItemStart Internal "smaa-search"; ItemStart Internal "smaa-area";
              ItemEnd External (key a); ItemEnd Internal (key a);
              ItemEnd External (key b); ItemEnd Internal (key b);
              OnLoad r; Resolve r] ++ later
           ∧ Forall (λ c, ∃ m u, c = ItemEnd m u) later)
  ∧ (∀ ext', returned (load_run toDataURL st dc ext' evs) = returned w)
  ∧ (one_shot evs →
       (completed (internalManager w) ↔
        0 < occ (ItemEnd Internal "smaa-search") (trace w)
        ∧ 0 < occ (ItemEnd Internal "smaa-area") (trace w))).
Proof.
  intros w.
  pose proof (Inv_load_run toDataURL st dc ext evs) as HI. fold w in HI.
  set (h := hearing toDataURL evs (loaded st dc ext) []) in HI.
  destruct (Inv_resolution _ _ _ HI) as (Ht & Hl & Hlt & Hge).
  unfold completed. rewrite Ht, Hl.
  split; [|split; [|split]].
  - split.
    + intros [r Hr]. destruct (decide (2 ≤ length h)) as [|Hn]; [done|].
      exfalso. apply (Hlt ltac:(lia) r Hr).
    + intros H2. destruct (Hge H2) as [Hr _]. eauto.
  - intros r Hr.
    destruct (decide (2 ≤ length h)) as [H2|Hn];
      [|exfalso; apply (Hlt ltac:(lia) r Hr)].
    destruct (Hge H2) as [Hr' Hn]. rewrite Hr in Hr'.
    injection Hr' as Hr'. split; [done|]. rewrite <- Hr' in Hn.
    destruct (heard_log_resolved r h H2) as (a & b & later & Hh).
    exists a, b, (rev (ends_of later)).
    split; [|apply ends_of_rev].
    rewrite notifications_rev, Hn, Hh, !rev_app_distr. by rewrite <- app_assoc.
  - intros ext'.
    destruct (run_same_but_external dc evs [] _ _
                (Inv_load st dc ext) (load_same_but_external st dc ext ext'))
      as [x Hx].
    unfold load_run at 1. rewrite Hx. done.
  - intros Hone.
    pose proof (Inv_counts _ _ _ Internal Search HI) as (_ & Hs & _).
    pose proof (Inv_counts _ _ _ Internal Area HI) as (_ & Ha & _).
    cbn [key] in Hs, Ha. rewrite !occ_notes, Hs, Ha by done.
    pose proof (hearing_le Search evs (loaded st dc ext) []) as Hbs.
    pose proof (hearing_le Area evs (loaded st dc ext) []) as Hba.
    fold h in Hbs, Hba. cbn [occ] in Hbs, Hba.
    pose proof (Hone Search). pose proof (Hone Area).
    rewrite (length_slots h). lia.
Qed.

(** C8, evaluated on a store whose [getItem] throws [e]: [load] returns
    normally and its promise is rejected with [e], but the only calls ever
    made are the four starts and the failing read: no error call reaches the
    external manager and onError is not invoked. *)
Theorem read_failure m cap e ext evs :
  let st := Some (mkStorage m cap (Some e)) in
  let w := load_run toDataURL st false ext evs in
  (load (initial st false ext)).1 = Normal tt
  ∧ returned w = Rejected e
  ∧ trace w =
      [ItemStart External "smaa-search"; ItemStart External "smaa-area";
       ItemStart Internal "smaa-search"; ItemStart Internal "smaa-area";
       GetItem "smaa-search"]
  ∧ occ (OnError e) (trace w) = 0
  ∧ ∀ s, occ (ItemError External (key s)) (trace w) = 0.
Proof.
  intros st w.
  assert (w = loaded st false ext) as ->.
  { subst w. unfold load_run. induction evs as [|ev evs IH]; [done|].
    rewrite <- IH at 2. cbn [run foldl]. f_equal.
    by destruct ev as [d|e'|[]|[]]; js. }
  split; [by js|]. split; [by js|]. split; [by js|].
  split; [|intros []]; js; cbn [trace calls rev app occ];
    repeat (case_decide; try discriminate); done.
Qed.

End LoadProperties.

(** ** generate on its own *)

Section GenerateProperties.

Variable toDataURL : ImageData → string.

Lemma run_snoc evs ev w :
  run toDataURL (evs ++ [ev]) w
  = deliver toDataURL (run toDataURL evs w) ev.
Proof. unfold run. by rewrite foldl_snoc. Qed.

Lemma GInv_generated st dc : GInv dc (shape st) (generated st dc).
Proof.
  js. apply GInv_intro; try done.
  destruct st as [[m c r]|]; cbn; eauto.
Qed.

Ltac ginv :=
  apply GInv_intro;
  [ cbn [store_like]; by eauto
  | by log_simpl
  | cbn [List.filter is_gen_resolve occ length];
    repeat (case_decide; try discriminate; try congruence); lia
  | try done; intros ? _; cbn [occ];
    repeat (case_decide; try discriminate; try congruence); lia ].

Lemma GInv_deliver dc o w ev :
  GInv dc o w → GInv dc o (deliver toDataURL w ev).
Proof.
  destruct 1 as [ls dcw ext url p cs Hls Hl Hr Hp].
  destruct ev as [d|e|[]|[]]; try (js; by apply GInv_intro).
  - destruct o as [[cap re]|]; cbn [store_like] in Hls;
      [destruct Hls as [m ->]|subst ls]; destruct dc, p; js_all; ginv.
  - destruct p; js_all; by apply GInv_intro.
Qed.

Lemma GInv_run dc o evs : ∀ w,
  GInv dc o w → GInv dc o (run toDataURL evs w).
Proof.
  induction evs as [|ev evs IH]; intros w HG; [done|].
  apply IH, GInv_deliver, HG.
Qed.

Lemma GInv_generate_run st dc evs :
  GInv dc (shape st) (generate_run toDataURL st dc evs).
Proof. apply GInv_run, GInv_generated. Qed.

Lemma GInv_rejected dc o w ev e :
  GInv dc o w →
  promise (deliver toDataURL w ev) = Rejected e →
  promise w = Rejected e ∨ ev = WorkerError e.
Proof.
  destruct 1 as [ls dcw ext url p cs Hls _ _ _].
  destruct ev as [d|e'|[]|[]]; try (js; by left).
  - destruct o as [[cap re]|]; cbn [store_like] in Hls;
      [destruct Hls as [m ->]|subst ls]; destruct dc, p; js_all; by left.
  - destruct p; js_all; try by left. intros [= ->]. by right.
Qed.

Lemma run_cons ev evs w :
  run toDataURL (ev :: evs) w
  = run toDataURL evs (deliver toDataURL w ev).
Proof. done. Qed.

(** Right after [generate] returned: the blob URL is live, never revoked,
    and the promise is pending. *)
Lemma generated_fresh st dc :
  workerURL (generated st dc) = Some true
  ∧ occ RevokeObjectURL (calls (generated st dc)) = 0
  ∧ promise (generated st dc) = Pending.
Proof.
  js. cbn [occ]. repeat (case_decide; try discriminate; try congruence).
  done.
Qed.

(** What an "error" event does to [generate]'s world: it settles a pending
    promise and nothing else. *)
Lemma GInv_error dc o w e :
  GInv dc o w →
  workerURL (deliver toDataURL w (WorkerError e)) = workerURL w
  ∧ occ RevokeObjectURL (calls (deliver toDataURL w (WorkerError e)))
    = occ RevokeObjectURL (calls w)
  ∧ promise (deliver toDataURL w (WorkerError e))
    = match promise w with Pending => Rejected e | p => p end.
Proof.
  destruct 1 as [ls dcw ext url p cs _ _ _ _].
  destruct p; js_all; cbn [occ];
    repeat (case_decide; try discriminate; try congruence); done.
Qed.

Lemma GInv_errors dc o es : ∀ w,
  GInv dc o w →
  workerURL (run toDataURL (WorkerError <$> es) w) = workerURL w
  ∧ occ RevokeObjectURL (calls (run toDataURL (WorkerError <$> es) w))
    = occ RevokeObjectURL (calls w)
  ∧ (promise w ≠ Pending →
     promise (run toDataURL (WorkerError <$> es) w) = promise w).
Proof.
  induction es as [|e es IH]; intros w HG; [done|].
  destruct (GInv_error dc o w e HG) as (Hu & Hr & Hp).
  destruct (IH _ (GInv_deliver dc o w (WorkerError e) HG))
    as (Hu' & Hr' & Hp').
  change (run toDataURL (WorkerError <$> e :: es) w)
    with (run toDataURL (WorkerError <$> es)
            (deliver toDataURL w (WorkerError e))).
  rewrite Hu', Hr', Hu, Hr. repeat split. intros Hne.
  rewrite Hp'; rewrite Hp; destruct (promise w); congruence.
Qed.

(** C2, evaluated on the error path: the worker reports [e], and possibly
    more errors after it.  The promise is rejected with [e], but the blob
    URL is never revoked and stays live.  On the message path (here with
    caching disabled) the listener revokes it once, just before it calls
    resolve, and it is no longer live. *)
Theorem error_path_keeps_url st dc e es d :
  let w := generate_run toDataURL st dc
             (WorkerError e :: (WorkerError <$> es)) in
  let v := generate_run toDataURL st true [WorkerMessage d] in
  (promise w = Rejected e
   ∧ occ RevokeObjectURL (trace w) = 0
   ∧ workerURL w = Some true)
  ∧ (promise v = Fulfilled (urls_of toDataURL d)
     ∧ trace v =
         [CreateObjectURL; NewWorker; WorkerAddEventListener "error";
          WorkerAddEventListener "message"; PostMessage;
          ToDataURL (searchImageData d); ToDataURL (areaImageData d);
          RevokeObjectURL; GenResolve (urls_of toDataURL d)]
     ∧ workerURL v = Some false).
Proof.
  intros w v. subst w v. unfold generate_run. split.
  - rewrite run_cons.
    pose proof (GInv_generated st dc) as H0.
    destruct (GInv_error _ _ _ e H0) as (Hu & Hr & Hp).
    destruct (GInv_errors dc _ es _
                (GInv_deliver dc _ _ (WorkerError e) H0))
      as (Hu' & Hr' & Hp').
    destruct (generated_fresh st dc) as (Fu & Fr & Fp).
    rewrite Fp in Hp. rewrite Fu in Hu. rewrite Fr in Hr.
    unfold trace. rewrite occ_rev, Hu', Hr', Hu, Hr, Hp' by by rewrite Hp.
    by rewrite Hp.
  - by js.
Qed.

(** A store with no room left takes no write. *)
Lemma fits_full a (k v : string) :
  fits (Some 0) (<[String a k := v]> (∅ : gmap string string)) = false.
Proof.
  unfold fits, usage. by rewrite insert_empty, map_fold_singleton.
Qed.

(** C7, evaluated on a store that is present but full (a quota of 0): the
    first write of the message listener throws.  The exception leaves the
    listener uncaught; the listener neither revokes the blob URL nor calls
    resolve, so [generate]'s promise stays pending.  So does the promise of
    a [load] that called it: both trackers have seen the four starts and
    nothing else, and neither callback is called. *)
Theorem write_failure_hangs ext d :
  let st := Some (mkStorage ∅ (Some 0) None) in
  let g := generate_run toDataURL st false [WorkerMessage d] in
  let w := load_run toDataURL st false ext [WorkerMessage d] in
  (promise g = Pending
   ∧ workerURL g = Some true
   ∧ trace g =
       [CreateObjectURL; NewWorker; WorkerAddEventListener "error";
        WorkerAddEventListener "message"; PostMessage;
        ToDataURL (searchImageData d); ToDataURL (areaImageData d);
        SetItem "smaa-search" (urls_of toDataURL d).1;
        Uncaught "QuotaExceededError"])
  ∧ (promise w = Pending
     ∧ returned w = Pending
     ∧ notifications w =
         [ItemStart External "smaa-search"; ItemStart External "smaa-area";
          ItemStart Internal "smaa-search"; ItemStart Internal "smaa-area"]).
Proof.
  intros st g w. subst st g w. unfold generate_run, load_run, notifications.
  split.
  - js. rewrite fits_full. by js.
  - js. rewrite !lookup_empty. js. rewrite fits_full. by js.
Qed.


End GenerateProperties.


(** ** Further properties of load *)

Section LoadCoverage.

Variable toDataURL : ImageData → string.

(** X1: [load] always returns normally.  On return its promise is pending,
    also on a cache hit, unless caching is enabled and reading the store
    threw: then it is already rejected with that error. *)
Theorem load_returns st dc ext :
  (load (initial st dc ext)).1 = Normal tt
  ∧ returned (loaded st dc ext)
    = match (if dc then None else st ≫= readError) with
      | Some e => Rejected e
      | None => Pending
      end.
Proof.
  destruct dc; [by js|].
  destruct st as [[m cap [e|]]|]; cbn [mbind option_bind readError];
    js_all; done.
Qed.

(** *** The store *)

Lemma loaded_store st dc ext : localStorage (loaded st dc ext) = st.
Proof.
  destruct dc; [by js|]. destruct st as [[m cap [e|]]|]; js_all; done.
Qed.

Lemma deliver_store_idle dc h w ev :
  Inv dc h w →
  dc = true ∨ localStorage w = None ∨ worker w = None →
  localStorage (deliver toDataURL w ev) = localStorage w
  ∧ List.filter is_store_call (calls (deliver toDataURL w ev))
    = List.filter is_store_call (calls w).
Proof.
  destruct 1 as [ls ext e cs _ _ _ | ls ext cs _ _ _
                | ls ext il k url u0 u1 hs cs _ _ Hk _
                | ls ext url e cs _ _ _];
    cbn [localStorage worker]; intros Hidle;
    destruct ev as [d|e'|[]|[]].
  all: try (js_all; done).
  - destruct dc, ls as [[m cap re]|];
      try (by destruct Hidle as [?|[?|?]]); js_all; done.
  - destruct Hk as [->| ->]; [js_all; done|].
    destruct dc, ls as [[m cap re]|];
      try (by destruct Hidle as [?|[?|?]]); js_all; done.
  - destruct Hk as [->| ->]; js_all; done.
  - destruct hs as [|a [|b hs]]; js_all; done.
  - destruct hs as [|a [|b hs]]; js_all; done.
  - destruct dc, ls as [[m cap re]|];
      try (by destruct Hidle as [?|[?|?]]); js_all; done.
Qed.

Lemma run_store_idle dc evs : ∀ h w,
  Inv dc h w →
  dc = true ∨ localStorage w = None ∨ worker w = None →
  localStorage (run toDataURL evs w) = localStorage w
  ∧ List.filter is_store_call (calls (run toDataURL evs w))
    = List.filter is_store_call (calls w).
Proof.
  induction evs as [|ev evs IH]; intros h w HI Hidle; [done|].
  destruct (deliver_store_idle dc h w ev HI Hidle) as [Hl Hc].
  destruct (deliver_stable toDataURL dc h w ev HI) as (Hw & _ & _).
  change (run toDataURL (ev :: evs) w)
    with (run toDataURL evs (deliver toDataURL w ev)).
  destruct (IH _ _ (Inv_deliver toDataURL dc h w ev HI)) as [Hl' Hc'].
  { rewrite Hl, Hw. exact Hidle. }
  by rewrite Hl', Hc', Hl, Hc.
Qed.

(** X2: with caching disabled, or without a store, a call of [load] never
    reads or writes the store, whatever the worker and the images do, and
    the store is left exactly as it was. *)
Theorem uncached_store_untouched st dc ext evs :
  uncached st dc →
  let w := load_run toDataURL st dc ext evs in
  List.filter is_store_call (trace w) = []
  ∧ localStorage w = st.
Proof.
  intros Hu w.
  destruct (run_store_idle dc evs [] _ (Inv_load st dc ext)) as [Hl Hc].
  { destruct Hu as [->| ->]; [by left|right; left; apply loaded_store]. }
  fold (load_run toDataURL st dc ext evs) in Hl, Hc. fold w in Hl, Hc.
  unfold trace. rewrite List.filter_rev, Hc, Hl, loaded_store.
  split; [|done].
  destruct Hu as [->| ->]; [by js|]. by destruct dc; js.
Qed.

Lemma hit_loaded m cap a b ext :
  m !! "smaa-search" = Some a →
  m !! "smaa-area" = Some b →
  let w := loaded (Some (mkStorage m cap None)) false ext in
  worker w = None
  ∧ promise w = Fulfilled (a, b)
  ∧ localStorage w = Some (mkStorage m cap None)
  ∧ List.filter is_store_call (calls w)
    = [GetItem "smaa-area"; GetItem "smaa-search"].
Proof.
  intros Ha Hb. js. rewrite Ha. js. rewrite Hb. by js.
Qed.

(** X3: a cache hit only reads.  The whole call makes exactly two store
    calls, the two reads, search first, and leaves the store as it was. *)
Theorem hit_reads_only m cap a b ext evs :
  m !! "smaa-search" = Some a →
  m !! "smaa-area" = Some b →
  let w := load_run toDataURL (Some (mkStorage m cap None)) false ext evs in
  List.filter is_store_call (trace w)
  = [GetItem "smaa-search"; GetItem "smaa-area"]
  ∧ localStorage w = Some (mkStorage m cap None).
Proof.
  intros Ha Hb w.
  destruct (hit_loaded m cap a b ext Ha Hb) as (Hk & _ & Hs & Hc).
  destruct (run_store_idle false evs [] _
              (Inv_load (Some (mkStorage m cap None)) false ext))
    as [Hl Hc']; [by right; right|].
  fold (load_run toDataURL (Some (mkStorage m cap None)) false ext evs)
    in Hl, Hc'.
  fold w in Hl, Hc'.
  unfold trace. by rewrite List.filter_rev, Hc', Hc, Hl, Hs.
Qed.

Lemma store_frame_refl st : store_frame st st.
Proof. by destruct st. Qed.

Lemma store_frame_insert st m cap re k v :
  k = "smaa-search" ∨ k = "smaa-area" →
  store_frame st (Some (mkStorage m cap re)) →
  store_frame st (Some (mkStorage (<[k:=v]> m) cap re)).
Proof.
  destruct st as [s|]; [|done]. cbn. intros Hk (Hc & Hr & Hf).
  repeat split; try done. intros k' H1 H2.
  rewrite lookup_insert_ne; [by apply Hf|]. by destruct Hk as [->| ->].
Qed.

Lemma deliver_store_frame st dc h w ev :
  Inv dc h w →
  store_frame st (localStorage w) →
  store_frame st (localStorage (deliver toDataURL w ev)).
Proof.
  destruct 1 as [ls ext e cs _ _ _ | ls ext cs _ _ _
                | ls ext il k url u0 u1 hs cs _ _ Hk _
                | ls ext url e cs _ _ _];
    cbn [localStorage]; intros Hf;
    destruct ev as [d|e'|[]|[]].
  all: try (js_all; done).
  - destruct dc, ls as [[m cap re]|]; js_all;
      repeat (apply store_frame_insert; [by auto|]); done.
  - destruct Hk as [->| ->]; [js_all; done|].
    destruct dc, ls as [[m cap re]|]; js_all;
      repeat (apply store_frame_insert; [by auto|]); done.
  - destruct Hk as [->| ->]; js_all; done.
  - destruct hs as [|a [|b hs]]; js_all; done.
  - destruct hs as [|a [|b hs]]; js_all; done.
  - destruct dc, ls as [[m cap re]|]; js_all;
      repeat (apply store_frame_insert; [by auto|]); done.
Qed.

Lemma run_store_frame st dc evs : ∀ h w,
  Inv dc h w →
  store_frame st (localStorage w) →
  store_frame st (localStorage (run toDataURL evs w)).
Proof.
  induction evs as [|ev evs IH]; intros h w HI Hf; [done|].
  apply (IH (hear ev w ++ h)).
  - by apply Inv_deliver.
  - by eapply deliver_store_frame.
Qed.

(** X4: a call of [load] changes nothing in the store but the values under
    "smaa-search" and "smaa-area": every other key keeps its value, no key
    is removed, and a store neither appears nor disappears. *)
Theorem store_frame_kept st dc ext evs :
  store_frame st (localStorage (load_run toDataURL st dc ext evs)).
Proof.
  apply (run_store_frame st dc evs [] _ (Inv_load st dc ext)).
  rewrite loaded_store. apply store_frame_refl.
Qed.

(** *** The two images *)

Ltac filter_simpl :=
  cbn [List.filter is_image_call is_callback is_note wiring fst snd
       promise returned];
  repeat match goal with
         | H : List.filter _ _ = _ |- _ => rewrite H; clear H
         end;
  try done.

Lemma deliver_wiring dc h w ev :
  Inv dc h w →
  List.filter is_image_call (calls w)
  = match promise w with Fulfilled u => wiring u | _ => [] end →
  List.filter is_image_call (calls (deliver toDataURL w ev))
  = match promise (deliver toDataURL w ev) with
    | Fulfilled u => wiring u
    | _ => []
    end.
Proof.
  destruct 1 as [ls ext e cs _ _ _ | ls ext cs _ _ _
                | ls ext il k url u0 u1 hs cs _ _ Hk _
                | ls ext url e cs _ _ _];
    cbn [calls promise]; intros Hq;
    destruct ev as [d|e'|[]|[]].
  all: try (js_all; by filter_simpl).
  - destruct dc, ls as [[m cap re]|]; js_all; by filter_simpl.
  - destruct Hk as [->| ->]; [js_all; by filter_simpl|].
    destruct dc, ls as [[m cap re]|]; js_all; by filter_simpl.
  - destruct Hk as [->| ->]; js_all; by filter_simpl.
  - destruct hs as [|a [|b hs]]; js_all; by filter_simpl.
  - destruct hs as [|a [|b hs]]; js_all; by filter_simpl.
  - destruct dc, ls as [[m cap re]|]; js_all; by filter_simpl.
Qed.

Lemma run_wiring dc evs : ∀ h w,
  Inv dc h w →
  List.filter is_image_call (calls w)
  = match promise w with Fulfilled u => wiring u | _ => [] end →
  List.filter is_image_call (calls (run toDataURL evs w))
  = match promise (run toDataURL evs w) with
    | Fulfilled u => wiring u
    | _ => []
    end.
Proof.
  induction evs as [|ev evs IH]; intros h w HI Hq; [done|].
  apply (IH (hear ev w ++ h)).
  - by apply Inv_deliver.
  - by apply (deliver_wiring dc h).
Qed.

Lemma loaded_wiring st dc ext :
  List.filter is_image_call (calls (loaded st dc ext))
  = match promise (loaded st dc ext) with
    | Fulfilled u => wiring u
    | _ => []
    end.
Proof.
  destruct dc; [by js|]. destruct st as [[m cap [e|]]|]; js_all; done.
Qed.

Lemma Inv_images dc h w :
  Inv dc h w →
  match promise w with
  | Fulfilled u =>
      search w = mkImage (Some u.1) [SearchLoaded]
      ∧ area w = mkImage (Some u.2) [AreaLoaded]
  | _ => search w = new_Image ∧ area w = new_Image
  end.
Proof. by destruct 1. Qed.

(** X5: the two images are wired together or not at all.  As long as the
    URL promise is not fulfilled both are untouched: no listener, no [src].
    Once it is fulfilled with [u], each image has exactly one "load"
    listener and its [src] is the matching URL of [u]; the call registered
    both listeners before it assigned the first [src], and it wires the
    images only once, whatever arrives later. *)
Theorem image_wiring st dc ext evs :
  let w := load_run toDataURL st dc ext evs in
  match promise w with
  | Fulfilled u =>
      search w = mkImage (Some u.1) [SearchLoaded]
      ∧ area w = mkImage (Some u.2) [AreaLoaded]
      ∧ List.filter is_image_call (trace w)
        = [ImageAddEventListener Search "load";
           ImageAddEventListener Area "load";
           SetSrc Search u.1; SetSrc Area u.2]
  | _ =>
      search w = new_Image ∧ area w = new_Image
      ∧ List.filter is_image_call (trace w) = []
  end.
Proof.
  intros w.
  pose proof (Inv_load_run toDataURL st dc ext evs) as HI. fold w in HI.
  pose proof (Inv_images _ _ _ HI) as Him.
  pose proof (run_wiring dc evs [] _ (Inv_load st dc ext)
                (loaded_wiring st dc ext)) as Hq.
  fold (load_run toDataURL st dc ext evs) in Hq. fold w in Hq.
  unfold trace. rewrite List.filter_rev, Hq.
  by destruct (promise w) as [|u|e]; destruct Him.
Qed.

(** *** The caller's callbacks *)

Lemma filter_callback_notes (cs : list Call) :
  List.filter is_callback (notes cs) = List.filter is_callback cs.
Proof.
  unfold notes. induction cs as [|c cs IH]; [done|].
  destruct c; cbn; by rewrite ?IH.
Qed.

Lemma heard_log_callbacks r hs :
  List.filter is_callback (heard_log r hs)
  = if Nat.leb 2 (length hs) then [OnLoad r] else [].
Proof.
  induction hs as [|s hs IH]; [done|].
  cbn [heard_log]. rewrite List.filter_app. cbn [List.filter is_callback].
  rewrite IH. by destruct hs as [|a [|b hs]].
Qed.

Lemma Inv_callbacks dc h w :
  Inv dc h w →
  List.filter is_callback (calls w)
  = match promise w, returned w with
    | Rejected e, _ => [OnError e]
    | _, Fulfilled r => [OnLoad r]
    | _, _ => []
    end.
Proof.
  intros HI. rewrite <- filter_callback_notes.
  destruct HI as [? ? ? ? _ Hn _ | ? ? ? _ Hn _
                 | ? ? ? ? ? ? ? hs ? _ Hn _ _ | ? ? ? ? ? _ Hn _];
    cbn [calls promise returned]; rewrite Hn; try done.
  rewrite heard_log_callbacks. by destruct (Nat.leb 2 (length hs)).
Qed.

(** X6: a call of [load] invokes at most one of the caller's two callbacks,
    and at most once: onError(e) exactly when the URL promise was rejected
    with [e], onLoad(r) exactly when the returned promise is fulfilled with
    [r], and none otherwise.  In particular no callback runs when the
    returned promise was rejected by a throwing store read. *)
Theorem callbacks_once st dc ext evs :
  let w := load_run toDataURL st dc ext evs in
  List.filter is_callback (trace w)
  = match promise w, returned w with
    | Rejected e, _ => [OnError e]
    | _, Fulfilled r => [OnLoad r]
    | _, _ => []
    end.
Proof.
  intros w.
  pose proof (Inv_load_run toDataURL st dc ext evs) as HI. fold w in HI.
  unfold trace. rewrite List.filter_rev, (Inv_callbacks _ _ _ HI).
  by destruct (promise w), (returned w).
Qed.

(** *** The caller's manager *)

(** Runs one macrotask on a world of known phase, splitting on what the
    listeners branch on, and closes the case with [tac]. *)
Ltac split_store :=
  match goal with
  | |- context [mkWorld ?ls ?dc _ _ _ _ _ _ _ _ _ _ _] =>
      destruct dc, ls as [[? ? ?]|]
  end.

Ltac split_heard :=
  match goal with
  | hs : list Slot |- _ => destruct hs as [|? [|? ?]]
  end.

(** [js_all], then the arithmetic tests of the managers. *)
Ltac js_num := js_all; cbn [Nat.eqb Nat.leb length]; js.

Ltac by_cases tac :=
  first
    [ solve [js_num; tac]
    | solve [split_heard; js_num; tac]
    | solve [split_store; js_num; tac]
    | solve [match goal with
             | H : _ = None ∨ _ = Some _ |- _ => destruct H as [->| ->]
             end;
             first [ solve [js_num; tac]
                   | solve [split_store; js_num; tac] ]] ].

Ltac ext_step := cbn [length]; split; first [done | lia].

Lemma deliver_external dc h w ev :
  Inv dc h w →
  itemsTotal (externalManager (deliver toDataURL w ev))
  = itemsTotal (externalManager w)
  ∧ itemsLoaded (externalManager (deliver toDataURL w ev))
    = itemsLoaded (externalManager w) + length (hear ev w).
Proof.
  destruct 1 as [ls ext e cs _ _ _ | ls ext cs _ _ _
                | ls ext il k url u0 u1 hs cs _ _ Hk _
                | ls ext url e cs _ _ _];
    destruct ev as [d|e'|[]|[]]; by_cases ext_step.
Qed.

Lemma run_external dc evs : ∀ h w,
  Inv dc h w →
  itemsTotal (externalManager (run toDataURL evs w))
  = itemsTotal (externalManager w)
  ∧ itemsLoaded (externalManager (run toDataURL evs w)) + length h
    = itemsLoaded (externalManager w)
      + length (hearing toDataURL evs w h).
Proof.
  induction evs as [|ev evs IH]; intros h w HI; cbn [hearing];
    [split; [done|cbn; lia]|].
  destruct (deliver_external dc h w ev HI) as [Ht Hl].
  destruct (IH _ _ (Inv_deliver toDataURL dc h w ev HI)) as [Ht' Hl'].
  change (run toDataURL (ev :: evs) w)
    with (run toDataURL evs (deliver toDataURL w ev)).
  rewrite length_app in Hl'. split; [congruence|lia].
Qed.

Lemma loaded_external st dc ext :
  itemsTotal (externalManager (loaded st dc ext)) = S (S (itemsTotal ext))
  ∧ itemsLoaded (externalManager (loaded st dc ext)) = itemsLoaded ext.
Proof.
  destruct dc; [by js|]. destruct st as [[m cap [e|]]|]; js_all; done.
Qed.

(** X7: a call of [load] adds two items to the caller's manager and ends one
    of them for every "load" event heard.  When the URL promise rejects it
    ends none: the manager only hears the two error calls, its count of
    loaded items stays where it was, and a manager that was not ahead of
    its total before the call cannot complete any more. *)
Theorem external_counters st dc ext evs :
  let w := load_run toDataURL st dc ext evs in
  let h := hearing toDataURL evs (loaded st dc ext) [] in
  itemsTotal (externalManager w) = 2 + itemsTotal ext
  ∧ itemsLoaded (externalManager w) = itemsLoaded ext + length h
  ∧ ∀ e, promise w = Rejected e →
      itemsLoaded (externalManager w) = itemsLoaded ext
      ∧ (itemsLoaded ext ≤ itemsTotal ext → ¬ completed (externalManager w)).
Proof.
  intros w h.
  pose proof (Inv_load_run toDataURL st dc ext evs) as HI. fold w h in HI.
  destruct (run_external dc evs [] _ (Inv_load st dc ext)) as [Ht Hl].
  fold (load_run toDataURL st dc ext evs) in Ht, Hl. fold w h in Ht, Hl.
  destruct (loaded_external st dc ext) as [Ht0 Hl0].
  rewrite Ht0 in Ht. rewrite Hl0 in Hl. cbn [length] in Hl.
  split; [done|]. split; [lia|].
  intros e He.
  destruct (Inv_counts _ _ _ External Search HI) as (_ & _ & _ & _ & Hr).
  rewrite (Hr e He) in Hl. cbn [length] in Hl.
  split; [lia|]. unfold completed. lia.
Qed.




(** *** From a miss to a hit *)

Lemma miss_answered st dc ext d :
  miss st dc → writable st dc →
  let w := deliver toDataURL (loaded st dc ext) (WorkerMessage d) in
  promise w = Fulfilled (urls_of toDataURL d)
  ∧ localStorage w
    = (if dc then st
       else (λ s, mkStorage
                    (<["smaa-area" := (urls_of toDataURL d).2]>
                       (<["smaa-search" := (urls_of toDataURL d).1]>
                          (items s)))
                    (capacity s) (readError s)) <$> st).
Proof.
  intros Hm Hw. unfold urls_of. destruct dc; [by js|].
  destruct Hw as [?|Hw]; [done|].
  destruct st as [[m cap re]|]; [|by js].
  specialize (Hw _ eq_refl). cbn [capacity] in Hw. subst cap.
  destruct Hm as [?|[?|(s & [= <-] & Hre & Hk)]]; try done.
  cbn [readError items] in Hre, Hk. subst re.
  cbn [fmap option_fmap option_map items capacity readError fst snd].
  destruct Hk as [Hk|Hk].
  - js. rewrite Hk. js_all. done.
  - js. destruct (m !! "smaa-search"); js; rewrite ?Hk; js_all; done.
Qed.

(** X9: after a miss on which no write can fail, the worker's result
    message followed by a "load" event of each image fulfils the returned
    promise, and the pair it resolves with carries the two data URLs made
    from that message. *)
Theorem miss_resolves st dc ext d evs :
  miss st dc → writable st dc →
  0 < occ (ImageLoad Search) evs → 0 < occ (ImageLoad Area) evs →
  let w := load_run toDataURL st dc ext (WorkerMessage d :: evs) in
  let u := urls_of toDataURL d in
  returned w = Fulfilled (mkSources (Some u.1) (Some u.2))
  ∧ src (search w) = Some u.1
  ∧ src (area w) = Some u.2.
Proof.
  intros Hm Hw Hs Ha w u. subst w. unfold load_run. rewrite run_cons.
  destruct (miss_answered st dc ext d Hm Hw) as [Hp _].
  fold u in Hp.
  set (w1 := deliver toDataURL (loaded st dc ext) (WorkerMessage d)) in *.
  assert (Inv dc [] w1) as H1.
  { apply (Inv_deliver toDataURL dc [] _ (WorkerMessage d)
             (Inv_load st dc ext)). }
  clearbody w1.
  pose proof (Inv_run toDataURL dc evs [] w1 H1) as HI.
  destruct (run_stable toDataURL dc evs [] w1 H1) as (_ & Hp' & _).
  rewrite Hp in Hp'. specialize (Hp' ltac:(done)).
  destruct (Inv_fulfilled _ _ _ u.1 u.2 HI) as (Hss & Hsa & _);
    [by rewrite Hp'; destruct u|].
  split; [|done].
  destruct (Inv_resolution _ _ _ HI) as (_ & _ & _ & Hge).
  rewrite Hss, Hsa in Hge. apply Hge.
  rewrite length_slots,
    (hearing_fulfilled toDataURL dc Search evs [] w1 _ H1 Hp),
    (hearing_fulfilled toDataURL dc Area evs [] w1 _ H1 Hp).
  cbn [occ]. lia.
Qed.

Lemma load_run_one st dc ext ev :
  load_run toDataURL st dc ext [ev] = deliver toDataURL (loaded st dc ext) ev.
Proof. done. Qed.

Lemma hit_run m cap a b ext evs :
  m !! "smaa-search" = Some a →
  m !! "smaa-area" = Some b →
  let w := load_run toDataURL (Some (mkStorage m cap None)) false ext evs in
  worker w = None ∧ promise w = Fulfilled (a, b).
Proof.
  intros Ha Hb w. subst w. unfold load_run.
  assert (worker (loaded (Some (mkStorage m cap None)) false ext) = None
          ∧ promise (loaded (Some (mkStorage m cap None)) false ext)
            = Fulfilled (a, b)) as [Hk Hp].
  { js. rewrite Ha. js. rewrite Hb. by js. }
  pose proof (Inv_load (Some (mkStorage m cap None)) false ext) as H0.
  set (w0 := loaded (Some (mkStorage m cap None)) false ext) in *.
  clearbody w0.
  destruct (run_stable toDataURL false evs [] w0 H0) as (Hk' & Hp' & _).
  rewrite Hk', Hp' by (by rewrite Hp). done.
Qed.

(** X10: what one call stores, the next call finds.  After a miss on a
    readable store without bound and the worker's result message, a later
    call of [load] on the store as the first one left it spawns no worker,
    and its two images get the same sources as the first call's: the data
    URLs made from that message. *)
Theorem cache_round_trip m d ext ext' evs :
  let st := Some (mkStorage m None None) in
  miss st false →
  let w1 := load_run toDataURL st false ext [WorkerMessage d] in
  let w2 := load_run toDataURL (localStorage w1) false ext' evs in
  let u := urls_of toDataURL d in
  List.filter is_lifecycle (trace w2) = []
  ∧ src (search w1) = Some u.1 ∧ src (area w1) = Some u.2
  ∧ src (search w2) = Some u.1 ∧ src (area w2) = Some u.2.
Proof.
  intros st Hm w1 w2 u.
  assert (writable st false) as Hw by (right; by intros s [= <-]).
  destruct (miss_answered st false ext d Hm Hw) as [Hp Hl].
  fold u in Hp, Hl.
  pose proof (Inv_load_run toDataURL st false ext [WorkerMessage d]) as H1.
  subst w2 w1. rewrite !load_run_one in *.
  set (w1 := deliver toDataURL (loaded st false ext) (WorkerMessage d)) in *.
  clearbody w1. subst st.
  cbn [fmap option_fmap option_map items capacity readError] in Hl.
  destruct (Inv_fulfilled _ _ _ u.1 u.2 H1) as (Hs1 & Ha1 & _);
    [by rewrite Hp; destruct u|].
  rewrite Hl.
  set (m' := <["smaa-area":=u.2]> (<["smaa-search":=u.1]> m)).
  assert (m' !! "smaa-search" = Some u.1) as Hks
    by (subst m'; by rewrite lookup_insert_ne, lookup_insert_eq).
  assert (m' !! "smaa-area" = Some u.2) as Hka
    by (subst m'; by rewrite lookup_insert_eq).
  clearbody m'.
  destruct (hit_run m' None u.1 u.2 ext' evs Hks Hka) as [Hk Hf].
  pose proof (Inv_load_run toDataURL (Some (mkStorage m' None None)) false
                ext' evs) as H2.
  set (w2 := load_run toDataURL (Some (mkStorage m' None None)) false
               ext' evs) in *.
  clearbody w2.
  destruct (Inv_fulfilled _ _ _ _ _ H2 Hf) as (Hs2 & Ha2 & _).
  pose proof (Inv_lifecycle _ _ _ H2) as Hlc. rewrite Hk in Hlc.
  repeat split; try done.
  unfold trace. rewrite List.filter_rev. fold (lifecycle (calls w2)).
  by rewrite Hlc.
Qed.

(** *** Image errors *)


End LoadCoverage.

(** ** Further properties of generate *)

Section GenerateCoverage.

Variable toDataURL : ImageData → string.





(** X13: the promise of [generate] is rejected only with the error of an
    "error" event of the worker; no store failure rejects it. *)
Theorem generate_rejection st dc evs e :
  promise (generate_run toDataURL st dc evs) = Rejected e →
  WorkerError e ∈ evs.
Proof.
  induction evs as [|ev evs IH] using rev_ind; [by js|].
  unfold generate_run in *. rewrite run_snoc. intros Hr.
  destruct (GInv_rejected toDataURL _ _ _ _ _
              (GInv_generate_run toDataURL st dc evs) Hr) as [Hp| ->].
  - apply elem_of_app. left. by apply IH.
  - apply elem_of_app. right. by apply list_elem_of_singleton.
Qed.

(** X14: whatever the worker sends, [generate] creates one blob URL and one
    worker, registers its two listeners, error first, and posts one
    message; no event makes it spawn again.  The blob URL is revoked once
    for every call of resolve, never on its own, and a fulfilled promise
    means the URL was revoked. *)
Theorem generate_lifecycle st dc evs :
  let w := generate_run toDataURL st dc evs in
  List.filter is_lifecycle (trace w)
  = [CreateObjectURL; NewWorker; WorkerAddEventListener "error";
     WorkerAddEventListener "message"; PostMessage]
  ∧ occ RevokeObjectURL (trace w)
    = length (List.filter is_gen_resolve (trace w))
  ∧ (∀ u, promise w = Fulfilled u → 0 < occ RevokeObjectURL (trace w)).
Proof.
  intros w. pose proof (GInv_generate_run toDataURL st dc evs) as HG.
  fold w in HG. clearbody w.
  destruct HG as [ls dcw ext url p cs _ Hl Hr Hp].
  unfold trace. cbn [calls promise].
  rewrite !List.filter_rev, occ_rev, length_rev.
  unfold lifecycle in Hl. rewrite Hl. done.
Qed.

(** X15: persistence.  With caching enabled and a store without bound, a
    result message that arrives while the promise is pending fulfils it
    with the two data URLs of that message; both were written under their
    keys, search first, before the blob URL was revoked and resolve was
    called; the store holds them, and every other key is as before. *)
Theorem persistence s pre d :
  let st := Some s in
  let w0 := generate_run toDataURL st false pre in
  let w := generate_run toDataURL st false (pre ++ [WorkerMessage d]) in
  let u := urls_of toDataURL d in
  capacity s = None →
  promise w0 = Pending →
  promise w = Fulfilled u
  ∧ calls w =
      GenResolve u :: RevokeObjectURL :: SetItem "smaa-area" u.2
      :: SetItem "smaa-search" u.1
      :: ToDataURL (areaImageData d) :: ToDataURL (searchImageData d)
      :: calls w0
  ∧ ∃ s', localStorage w = Some s'
          ∧ items s' !! "smaa-search" = Some u.1
          ∧ items s' !! "smaa-area" = Some u.2
          ∧ ∀ k, k ≠ "smaa-search" → k ≠ "smaa-area" →
                 items s' !! k
                 = (localStorage w0 ≫= λ s0, items s0 !! k).
Proof.
  intros st w0 w u. subst u w. unfold urls_of, generate_run. rewrite run_snoc.
  fold (generate_run toDataURL st false pre). fold w0.
  pose proof (GInv_generate_run toDataURL st false pre) as HG. fold w0 in HG.
  clearbody w0. subst st. destruct s as [m0 cap re]. cbn [capacity].
  intros ->.
  destruct HG as [ls dcw ext url p cs [m ->] _ _ _]. cbn [promise].
  intros ->. js_all.
  repeat split; try done. eexists. split; [done|]. cbn [items].
  split; [by rewrite lookup_insert_ne, lookup_insert_eq|].
  split; [by rewrite lookup_insert_eq|].
  intros k H1 H2. cbn [mbind option_bind items].
  by rewrite !lookup_insert_ne.
Qed.

(** X16: a result message after an error.  The promise stays rejected,
    but the message listener still runs in full: it converts both buffers
    and revokes the blob URL that the error path had left live. *)
Theorem late_message st e d :
  let w := generate_run toDataURL st true [WorkerError e; WorkerMessage d] in
  promise w = Rejected e
  ∧ workerURL w = Some false
  ∧ localStorage w = st
  ∧ trace w =
      [CreateObjectURL; NewWorker; WorkerAddEventListener "error";
       WorkerAddEventListener "message"; PostMessage; GenReject e;
       ToDataURL (searchImageData d); ToDataURL (areaImageData d);
       RevokeObjectURL; GenResolve (urls_of toDataURL d)].
Proof. by js. Qed.

End GenerateCoverage.

(** ** Concrete runs *)

(** A miss with an empty store: the worker answers, both images load. *)
Example run_miss :
  trace (load_run sample_toDataURL (Some (mkStorage ∅ None None)) false
           new_LoadingManager
           [WorkerMessage (sample_data 0 1); ImageLoad Search; ImageLoad Area])
  = [ItemStart External "smaa-search"; ItemStart External "smaa-area";
     ItemStart Internal "smaa-search"; ItemStart Internal "smaa-area";
     GetItem "smaa-search"; GetItem "smaa-area";
     CreateObjectURL; NewWorker; WorkerAddEventListener "error";
     WorkerAddEventListener "message"; PostMessage;
     ToDataURL (mkImageData 1 1 [0]); ToDataURL (mkImageData 1 1 [1]);
     SetItem "smaa-search" "data:A"; SetItem "smaa-area" "data:B";
     RevokeObjectURL; GenResolve ("data:A", "data:B");
     ImageAddEventListener Search "load"; ImageAddEventListener Area "load";
     SetSrc Search "data:A"; SetSrc Area "data:B";
     ItemEnd External "smaa-search"; ItemEnd Internal "smaa-search";
     ItemEnd External "smaa-area"; ItemEnd Internal "smaa-area";
     OnLoad (mkSources (Some "data:A") (Some "data:B"));
     Resolve (mkSources (Some "data:A") (Some "data:B"))].
Proof. by vm_compute. Qed.

(** A hit: the images are wired in the first microtask. *)
Example run_hit :
  trace (load_run sample_toDataURL (Some (mkStorage sample_cache None None))
           false new_LoadingManager [ImageLoad Area])
  = [ItemStart External "smaa-search"; ItemStart External "smaa-area";
     ItemStart Internal "smaa-search"; ItemStart Internal "smaa-area";
     GetItem "smaa-search"; GetItem "smaa-area";
     ImageAddEventListener Search "load"; ImageAddEventListener Area "load";
     SetSrc Search "data:S"; SetSrc Area "data:T";
     ItemEnd External "smaa-area"; ItemEnd Internal "smaa-area"].
Proof. by vm_compute. Qed.

(** The worker fails; a late message still runs the message listener. *)
Example run_error :
  trace (load_run sample_toDataURL None false new_LoadingManager
           [WorkerError "boom"; WorkerMessage (sample_data 0 1)])
  = [ItemStart External "smaa-search"; ItemStart External "smaa-area";
     ItemStart Internal "smaa-search"; ItemStart Internal "smaa-area";
     CreateObjectURL; NewWorker; WorkerAddEventListener "error";
     WorkerAddEventListener "message"; PostMessage;
     GenReject "boom";
     ItemError External "smaa-search"; ItemError External "smaa-area";
     OnError "boom"; Reject "boom";
     ToDataURL (mkImageData 1 1 [0]); ToDataURL (mkImageData 1 1 [1]);
     RevokeObjectURL; GenResolve ("data:A", "data:B")].
Proof. by vm_compute. Qed.

(** A store with room for one image only: the second write throws, the
    listener stops there, and the promise stays pending with one key
    written. *)
Example run_full_store :
  let w := generate_run sample_toDataURL (Some (mkStorage ∅ (Some 20) None))
             false [WorkerMessage (sample_data 0 1)] in
  promise w = Pending
  ∧ workerURL w = Some true
  ∧ (items <$> localStorage w) = Some {[ "smaa-search" := "data:A" ]}
  ∧ trace w
    = [CreateObjectURL; NewWorker; WorkerAddEventListener "error";
       WorkerAddEventListener "message"; PostMessage;
       ToDataURL (mkImageData 1 1 [0]); ToDataURL (mkImageData 1 1 [1]);
       SetItem "smaa-search" "data:A"; SetItem "smaa-area" "data:B";
       Uncaught "QuotaExceededError"].
Proof. by vm_compute. Qed.


(** A store holding both images: no worker, and the promise resolves with
    the cached strings once both images loaded. *)
Lemma cache_hit_witness :
  (sample_cache !! "smaa-search" = Some "data:S"
   ∧ sample_cache !! "smaa-area" = Some "data:T")
  ∧ worker (load_run sample_toDataURL
              (Some (mkStorage sample_cache None None)) false
              new_LoadingManager [ImageLoad Area; ImageLoad Search]) = None
  ∧ returned (load_run sample_toDataURL
                (Some (mkStorage sample_cache None None)) false
                new_LoadingManager [ImageLoad Area; ImageLoad Search])
    = Fulfilled (mkSources (Some "data:S") (Some "data:T")).
Proof.
  split; [by split; vm_compute|].
  pose proof (cache_hit sample_toDataURL sample_cache None "data:S" "data:T"
                new_LoadingManager [ImageLoad Area; ImageLoad Search]
                ltac:(by vm_compute) ltac:(by vm_compute)) as H.
  destruct H as (_ & _ & Hk & _ & _ & _ & Hr).
  split; [exact Hk|]. apply Hr; vm_compute; lia.
Defined.

(** No store at all is a miss: one worker. *)
Lemma cache_miss_witness :
  miss None false
  ∧ occ NewWorker
      (trace (load_run sample_toDataURL None false new_LoadingManager
                [WorkerMessage (sample_data 0 1)])) = 1.
Proof.
  assert (miss None false) as Hm by (right; by left).
  split; [done|].
  apply (cache_miss sample_toDataURL None false new_LoadingManager
           [WorkerMessage (sample_data 0 1)] Hm).
Defined.

(** On a hit both images load once each: the promise is fulfilled and both
    items have ended on the internal manager. *)
Lemma resolution_witness :
  one_shot [ImageLoad Area; ImageLoad Search]
  ∧ returned (load_run sample_toDataURL
                (Some (mkStorage sample_cache None None)) false
                new_LoadingManager [ImageLoad Area; ImageLoad Search])
    = Fulfilled (mkSources (Some "data:S") (Some "data:T"))
  ∧ 0 < occ (ItemEnd Internal "smaa-search")
          (trace (load_run sample_toDataURL
                    (Some (mkStorage sample_cache None None)) false
                    new_LoadingManager [ImageLoad Area; ImageLoad Search])).
Proof.
  assert (one_shot [ImageLoad Area; ImageLoad Search]) as Hone.
  { intros []; vm_compute; lia. }
  split; [done|]. split; [by vm_compute|].
  pose proof (resolution sample_toDataURL
                (Some (mkStorage sample_cache None None)) false
                new_LoadingManager [ImageLoad Area; ImageLoad Search])
    as (Hiff & _ & _ & Hboth).
  apply (Hboth Hone), Hiff. eexists. by vm_compute.
Defined.

(** The worker reports ["boom"]: the returned promise is rejected with it. *)
Lemma rejection_path_witness :
  promise (load_run sample_toDataURL None false new_LoadingManager
             [WorkerError "boom"]) = Rejected "boom"
  ∧ returned (load_run sample_toDataURL None false new_LoadingManager
                [WorkerError "boom"]) = Rejected "boom".
Proof.
  assert (promise (load_run sample_toDataURL None false new_LoadingManager
                     [WorkerError "boom"]) = Rejected "boom") as Hp
    by (by vm_compute).
  split; [done|].
  apply (rejection_path sample_toDataURL None false new_LoadingManager
           [WorkerError "boom"] "boom" Hp).
Defined.


(** Caching disabled: no store call, the store keeps its items. *)
Lemma uncached_store_untouched_witness :
  uncached (Some (mkStorage sample_cache None None)) true
  ∧ localStorage
      (load_run sample_toDataURL (Some (mkStorage sample_cache None None))
         true new_LoadingManager [WorkerMessage (sample_data 0 1)])
    = Some (mkStorage sample_cache None None).
Proof.
  assert (uncached (Some (mkStorage sample_cache None None)) true) as Hu
    by (by left).
  split; [done|].
  apply (uncached_store_untouched sample_toDataURL
           (Some (mkStorage sample_cache None None)) true new_LoadingManager
           [WorkerMessage (sample_data 0 1)] Hu).
Defined.

(** A store holding both images: two reads and nothing else. *)
Lemma hit_reads_only_witness :
  (sample_cache !! "smaa-search" = Some "data:S"
   ∧ sample_cache !! "smaa-area" = Some "data:T")
  ∧ List.filter is_store_call
      (trace (load_run sample_toDataURL
                (Some (mkStorage sample_cache None None)) false
                new_LoadingManager [ImageLoad Search; ImageLoad Area]))
    = [GetItem "smaa-search"; GetItem "smaa-area"].
Proof.
  split; [by split; vm_compute|].
  apply (hit_reads_only sample_toDataURL sample_cache None "data:S" "data:T"
           new_LoadingManager [ImageLoad Search; ImageLoad Area]
           ltac:(by vm_compute) ltac:(by vm_compute)).
Defined.

(** No store: the worker answers, both images load, the promise resolves. *)
Lemma miss_resolves_witness :
  (miss None false ∧ writable None false)
  ∧ returned (load_run sample_toDataURL None false new_LoadingManager
                (WorkerMessage (sample_data 0 1)
                 :: [ImageLoad Area; ImageLoad Search]))
    = Fulfilled (mkSources (Some "data:A") (Some "data:B")).
Proof.
  assert (miss None false) as Hm by (right; by left).
  assert (writable None false) as Hw by (right; by intros s [=]).
  split; [done|].
  apply (miss_resolves sample_toDataURL None false new_LoadingManager
           (sample_data 0 1) [ImageLoad Area; ImageLoad Search] Hm Hw);
    vm_compute; lia.
Defined.

(** An empty store without bound: the second call finds what the first
    one stored. *)
Lemma cache_round_trip_witness :
  miss (Some (mkStorage ∅ None None)) false
  ∧ src (search
           (load_run sample_toDataURL
              (localStorage
                 (load_run sample_toDataURL (Some (mkStorage ∅ None None))
                    false new_LoadingManager
                    [WorkerMessage (sample_data 0 1)]))
              false new_LoadingManager []))
    = Some "data:A".
Proof.
  assert (miss (Some (mkStorage ∅ None None)) false) as Hm.
  { right; right. eexists. split; [done|]. split; [done|]. by left. }
  split; [done|].
  apply (cache_round_trip sample_toDataURL ∅ (sample_data 0 1)
           new_LoadingManager new_LoadingManager [] Hm).
Defined.


(** A rejected promise: the error is among the events. *)
Lemma generate_rejection_witness :
  promise (generate_run sample_toDataURL None false
             [WorkerMessage (sample_data 0 1)] ) = Fulfilled ("data:A", "data:B")
  ∧ promise (generate_run sample_toDataURL None false [WorkerError "boom"])
    = Rejected "boom"
  ∧ WorkerError "boom" ∈ [WorkerError "boom"].
Proof.
  split; [by vm_compute|].
  assert (promise (generate_run sample_toDataURL None false
                     [WorkerError "boom"]) = Rejected "boom") as Hr
    by (by vm_compute).
  split; [done|].
  apply (generate_rejection sample_toDataURL None false [WorkerError "boom"]
           "boom" Hr).
Defined.

(** An empty store without bound: after the result message it holds both
    data URLs. *)
Lemma persistence_witness :
  (capacity (mkStorage ∅ None None) = None
   ∧ promise (generate_run sample_toDataURL (Some (mkStorage ∅ None None))
                false []) = Pending)
  ∧ ∃ s',
      localStorage
        (generate_run sample_toDataURL (Some (mkStorage ∅ None None)) false
           ([] ++ [WorkerMessage (sample_data 0 1)])) = Some s'
      ∧ items s' !! "smaa-search" = Some "data:A"
      ∧ items s' !! "smaa-area" = Some "data:B".
Proof.
  assert (promise (generate_run sample_toDataURL
                     (Some (mkStorage ∅ None None)) false []) = Pending) as Hp
    by (by vm_compute).
  split; [done|].
  pose proof (persistence sample_toDataURL (mkStorage ∅ None None) []
                (sample_data 0 1) eq_refl Hp) as (_ & _ & s' & H1 & H2 & H3 & _).
  exists s'. done.
Defined.
